(** * large-download: the attempt / retry state machine of [index.js]

    A shallow embedding of [class LargeDownload] (constructor and [load]) and
    the properties of its retry loop, teardown, size check, timeout and
    progress reporting.

    JavaScript numbers are modelled by [jsnum]: integers are exact ([Z]), plus
    [NaN] and [Infinity]; rounding of doubles above 2^53 is not modelled.
    The streams of [got] and [fs] are modelled by the listeners the code
    attaches to them; the runtime delivers [Event]s, in any order, and an
    event runs the listeners attached at that moment, to completion (Node
    runs one callback at a time). A timer fires only while it is armed, a
    writable emits ['close'] once, and a promise keeps its first settlement;
    nothing else is assumed about the runtime. The caller's [onRetry] is
    recorded as a call and assumed to return. *)

From Stdlib Require Import Ascii.
From stdpp Require Import gmap strings list pretty.

Local Open Scope Z_scope.

(** ** JavaScript values used by the module *)

Inductive jsnum :=
| JNaN
| JInfinity
| JNum (z : Z).

Global Instance jsnum_eq_dec : EqDecision jsnum.
Proof. solve_decision. Defined.

(** ToBoolean on a number: [0] and [NaN] are falsy. *)
Definition truthy (n : jsnum) : bool :=
  match n with
  | JNaN => false
  | JInfinity => true
  | JNum z => negb (z =? 0)
  end.

(** [a > b] on numbers. *)
Definition js_gt (a b : jsnum) : bool :=
  match a, b with
  | JNaN, _ | _, JNaN => false
  | JInfinity, JInfinity => false
  | JInfinity, JNum _ => true
  | JNum _, JInfinity => false
  | JNum x, JNum y => y <? x
  end.

(** [a !== b] on numbers. *)
Definition js_strict_neq (a b : jsnum) : bool :=
  match a, b with
  | JNaN, _ | _, JNaN => true
  | JInfinity, JInfinity => false
  | JNum x, JNum y => negb (x =? y)
  | _, _ => true
  end.

(** Number to string, as a template literal does it for an integer below
    10^21; the exponent notation that larger numbers get is not modelled. *)
Definition js_to_string (n : jsnum) : string :=
  match n with
  | JNaN => "NaN"
  | JInfinity => "Infinity"
  | JNum z => pretty z
  end.

(** [parseInt(v, 10)]: leading white space, an optional sign, then the
    longest run of decimal digits; [NaN] when there is none. [None] is
    [undefined] (the header is absent). White space is the ASCII one (HTTP
    header values carry no other), and the result is the exact integer:
    the rounding to a double above 2^53 is not modelled. *)
Definition is_ws (c : Ascii.ascii) : bool :=
  let n := Ascii.nat_of_ascii c in
  ((n =? 32) || (n =? 9) || (n =? 10) || (n =? 11) || (n =? 12) || (n =? 13))%nat.

Fixpoint skip_ws (s : string) : string :=
  match s with
  | String c r => if is_ws c then skip_ws r else s
  | EmptyString => s
  end.

Definition digit_of (c : Ascii.ascii) : option Z :=
  let n := Ascii.nat_of_ascii c in
  if ((48 <=? n) && (n <=? 57))%nat then Some (Z.of_nat n - 48) else None.

Fixpoint digits (s : string) (acc : option Z) : option Z :=
  match s with
  | String c r =>
      match digit_of c with
      | Some d => digits r (Some (10 * default 0 acc + d))
      | None => acc
      end
  | EmptyString => acc
  end.

Definition parseInt10 (v : option string) : jsnum :=
  match v with
  | None => JNaN
  | Some s =>
      let s := skip_ws s in
      let '(neg, s) :=
        match s with
        | String c r =>
            if Ascii.eqb c "-"%char then (true, r)
            else if Ascii.eqb c "+"%char then (false, r)
            else (false, s)
        | EmptyString => (false, s)
        end in
      match digits s None with
      | None => JNaN
      | Some n => JNum (if neg : bool then - n else n)
      end
  end.

Inductive jsval :=
| VUndefined
| VNull
| VBool (b : bool)
| VNumber (z : Z)
| VString (s : string)
| VObject (props : jsprops)
with jsprops :=
| PNil
| PCons (key : string) (value : jsval) (rest : jsprops).

Record Error := mkError { message : string }.

Global Instance Error_eq_dec : EqDecision Error.
Proof. solve_decision. Defined.

(** ** The constructor *)

(** [LargeDownloadOptions]; a field that is [undefined] is [None]. *)
Record LargeDownloadOptions := mkOptions {
  opt_link : option string;
  opt_destination : option string;
  opt_timeout : option Z;
  opt_retries : option Z;
  opt_httpOptions : option (gmap string jsval);
  opt_onRetry : bool;
  opt_minSizeToShowProgress : option jsnum;
}.

Record LargeDownload := mkLargeDownload {
  link : string;
  destination : string;
  timeout : option Z;
  retries : Z;
  httpOptions : gmap string jsval;
  onRetry : bool;
  minSizeToShowProgress : jsnum;
}.

(** [Object.assign(target, source)]: the own properties of the source are
    written over the target's. *)
Definition Object_assign (target : gmap string jsval)
    (source : option (gmap string jsval)) : gmap string jsval :=
  match source with
  | Some src => src ∪ target
  | None => target
  end.

(** [! opts.link]: [undefined], [null] and the empty string are falsy. *)
Definition nonempty (s : option string) : option string :=
  match s with
  | Some EmptyString => None
  | _ => s
  end.

Definition constructor (opts : LargeDownloadOptions) : Error + LargeDownload :=
  match nonempty (opt_link opts) with
  | None => inl (mkError "Download link is not provided")
  | Some l =>
      match nonempty (opt_destination opts) with
      | None => inl (mkError "Destination is not provided")
      | Some d =>
          inr {| link := l;
                 destination := d;
                 timeout := opt_timeout opts;
                 retries := default 1 (opt_retries opts);
                 httpOptions :=
                   Object_assign {[ "retries" := VNumber 0 ]} (opt_httpOptions opts);
                 onRetry := opt_onRetry opts;
                 minSizeToShowProgress :=
                   match opt_minSizeToShowProgress opts with
                   | Some n => if truthy n then n else JNum 0
                   | None => JNum 0
                   end |}
      end
  end.


(** ** The state of one [load()] *)

(** What is attached to the writable's ['close'] event: [tryDownload]
    (line 81) or [resolve] (line 98). *)
Inductive CloseListener :=
| OnCloseTryDownload
| OnCloseResolve.

Global Instance CloseListener_eq_dec : EqDecision CloseListener.
Proof. solve_decision. Defined.

(** The closure of one [tryDownload()] call: its four [let] variables
    (lines 56-59) and the state of its two streams. [downloadTimer] and
    [bar] hold the number of the timer and of the progress bar. [piped]:
    [readable] is piped into [writable]; [finishListener]: [onFinish] is
    attached to ['finish']; [requestListener]: the ['request'] listener of
    lines 105-110 is attached; [closeListeners]: what is attached to
    ['close'], in order; [responses]: one entry per response object, the
    [doShowProgressBar] that its ['data'] listener captured; [ended]:
    [writable.end()] has been called; [closed]: the writable has emitted
    ['close']. The ['error'] listeners of both streams and the ['response']
    listener are attached for good. *)
Record Attempt := mkAttempt {
  downloadTimer : option nat;
  bar : option nat;
  declaredSize : jsnum;
  downloadedSize : Z;
  piped : bool;
  finishListener : bool;
  requestListener : bool;
  closeListeners : list CloseListener;
  responses : list bool;
  ended : bool;
  closed : bool;
}.

Inductive TimerState :=
| Armed
| Cleared
| Fired.

Record Timer := mkTimer {
  timerAttempt : nat;
  timerDelay : Z;
  timerState : TimerState;
}.

Inductive Promise :=
| Pending
| Resolved
| Rejected (e : Error).

(** The calls the code makes on its collaborators and on itself:
    [tryDownload()] for attempt [a] (with its [got.stream] and
    [fs.createWriteStream]), [cleanup()] and within it [readable.unpipe],
    [writable.removeListener('finish', onFinish)], [writable.end],
    [clearTimeout] and [bar.terminate]; [setTimeout], [req.abort],
    [new ProgressBar], [bar.tick]; [onError(err)], [_this.onRetry(err)],
    [writable.on('close', ...)], [resolve] (by the close listener of attempt
    [a]) and [reject]. *)
Inductive Call :=
| CallTryDownload (a : nat)
| CallCleanup (a : nat)
| CallUnpipe (a : nat)
| CallEnd (a : nat)
| CallSetTimeout (t : nat) (ms : Z)
| CallClearTimeout (t : nat)
| CallAbort (a : nat)
| CallNewProgressBar (b : nat) (total : jsnum)
| CallTick (b : nat) (len : N)
| CallTerminate (b : nat)
| CallOnError (a : nat) (e : Error)
| CallOnRetry (e : Error)
| CallOnClose (a : nat) (l : CloseListener)
| CallResolve (a : nat)
| CallReject (e : Error)
| CallRemoveListener (a : nat).

Global Instance Call_eq_dec : EqDecision Call.
Proof. solve_decision. Defined.

(** [calls] is kept newest first; [trace] gives it in order of time. *)
Record State := mkState {
  retriesDone : Z;
  promise : Promise;
  attempts : list Attempt;
  timers : list Timer;
  progressBars : nat;
  calls : list Call;
}.

Definition trace (s : State) : list Call := reverse (calls s).

Definition Handler := State → State.

Definition call (c : Call) : Handler := λ s,
  {| retriesDone := retriesDone s; promise := promise s; attempts := attempts s;
     timers := timers s; progressBars := progressBars s; calls := c :: calls s |}.

Definition set_retriesDone (n : Z) : Handler := λ s,
  {| retriesDone := n; promise := promise s; attempts := attempts s;
     timers := timers s; progressBars := progressBars s; calls := calls s |}.

Definition set_attempts (l : list Attempt) : Handler := λ s,
  {| retriesDone := retriesDone s; promise := promise s; attempts := l;
     timers := timers s; progressBars := progressBars s; calls := calls s |}.

Definition set_timers (l : list Timer) : Handler := λ s,
  {| retriesDone := retriesDone s; promise := promise s; attempts := attempts s;
     timers := l; progressBars := progressBars s; calls := calls s |}.

Definition set_progressBars (n : nat) : Handler := λ s,
  {| retriesDone := retriesDone s; promise := promise s; attempts := attempts s;
     timers := timers s; progressBars := n; calls := calls s |}.

(** A promise keeps its first settlement. *)
Definition settle (p : Promise) : Handler := λ s,
  {| retriesDone := retriesDone s;
     promise := match promise s with Pending => p | q => q end;
     attempts := attempts s;
     timers := timers s; progressBars := progressBars s; calls := calls s |}.

Definition seq_handler (f g : Handler) : Handler := λ s, g (f s).
Infix ">>" := seq_handler (at level 61, left associativity).

Definition skip : Handler := λ s, s.

(** Update the closure of attempt [a]. *)
Definition update (a : nat) (f : Attempt → Attempt) : Handler := λ s,
  set_attempts (alter f a (attempts s)) s.

(** Run [k] on the closure of attempt [a]; nothing happens when there is no
    such attempt. *)
Definition with_attempt (a : nat) (k : Attempt → Handler) : Handler := λ s,
  match attempts s !! a with
  | Some x => k x s
  | None => s
  end.

Definition set_downloadTimer (t : option nat) (x : Attempt) : Attempt :=
  {| downloadTimer := t; bar := bar x; declaredSize := declaredSize x;
     downloadedSize := downloadedSize x; piped := piped x;
     finishListener := finishListener x; requestListener := requestListener x;
     closeListeners := closeListeners x; responses := responses x;
     ended := ended x; closed := closed x |}.

Definition set_bar (b : option nat) (x : Attempt) : Attempt :=
  {| downloadTimer := downloadTimer x; bar := b; declaredSize := declaredSize x;
     downloadedSize := downloadedSize x; piped := piped x;
     finishListener := finishListener x; requestListener := requestListener x;
     closeListeners := closeListeners x; responses := responses x;
     ended := ended x; closed := closed x |}.

Definition set_declaredSize (n : jsnum) (x : Attempt) : Attempt :=
  {| downloadTimer := downloadTimer x; bar := bar x; declaredSize := n;
     downloadedSize := downloadedSize x; piped := piped x;
     finishListener := finishListener x; requestListener := requestListener x;
     closeListeners := closeListeners x; responses := responses x;
     ended := ended x; closed := closed x |}.

Definition set_downloadedSize (n : Z) (x : Attempt) : Attempt :=
  {| downloadTimer := downloadTimer x; bar := bar x; declaredSize := declaredSize x;
     downloadedSize := n; piped := piped x;
     finishListener := finishListener x; requestListener := requestListener x;
     closeListeners := closeListeners x; responses := responses x;
     ended := ended x; closed := closed x |}.

(** [readable.unpipe(writable); writable.removeListener('finish', onFinish);
    writable.end()] on the streams of the closure. *)
Definition detach (x : Attempt) : Attempt :=
  {| downloadTimer := downloadTimer x; bar := bar x; declaredSize := declaredSize x;
     downloadedSize := downloadedSize x; piped := false;
     finishListener := false; requestListener := requestListener x;
     closeListeners := closeListeners x; responses := responses x;
     ended := true; closed := closed x |}.

Definition add_closeListener (l : CloseListener) (x : Attempt) : Attempt :=
  {| downloadTimer := downloadTimer x; bar := bar x; declaredSize := declaredSize x;
     downloadedSize := downloadedSize x; piped := piped x;
     finishListener := finishListener x; requestListener := requestListener x;
     closeListeners := closeListeners x ++ [l]; responses := responses x;
     ended := ended x; closed := closed x |}.

Definition add_response (doShowProgressBar : bool) (x : Attempt) : Attempt :=
  {| downloadTimer := downloadTimer x; bar := bar x; declaredSize := declaredSize x;
     downloadedSize := downloadedSize x; piped := piped x;
     finishListener := finishListener x; requestListener := requestListener x;
     closeListeners := closeListeners x; responses := responses x ++ [doShowProgressBar];
     ended := ended x; closed := closed x |}.

Definition set_closed (x : Attempt) : Attempt :=
  {| downloadTimer := downloadTimer x; bar := bar x; declaredSize := declaredSize x;
     downloadedSize := downloadedSize x; piped := piped x;
     finishListener := finishListener x; requestListener := requestListener x;
     closeListeners := closeListeners x; responses := responses x;
     ended := ended x; closed := true |}.

Definition set_timerState (st : TimerState) (t : Timer) : Timer :=
  {| timerAttempt := timerAttempt t; timerDelay := timerDelay t; timerState := st |}.

(** [clearTimeout(t)]: an armed timer is cancelled, any other is left alone. *)
Definition cancel (tm : Timer) : Timer :=
  match timerState tm with
  | Armed => set_timerState Cleared tm
  | _ => tm
  end.

Definition clearTimeout (t : nat) : Handler := λ s,
  set_timers (alter cancel t (timers s)) s.

Definition LF : string := String (ascii_of_nat 10) EmptyString.
Definition DQUOTE : string := String (ascii_of_nat 34) EmptyString.

(** What the runtime can deliver to the listeners of a download: events of
    the readable ([got.stream]) and of the writable of attempt [a], of the
    [r]-th response object of attempt [a], and the expiry of timer [t]. The
    ['response'] event carries the [content-length] header and what
    [process.stdout.isTTY] holds at that moment. *)
Inductive Event :=
| EvRequest (a : nat)
| EvTimeout (t : nat)
| EvReadableError (a : nat) (e : Error)
| EvWritableError (a : nat) (e : Error)
| EvResponse (a : nat) (contentLength : option string) (isTTY : bool)
| EvData (a r : nat) (len : N)
| EvFinish (a : nat)
| EvClose (a : nat).

(** ** [load()] *)

Section Load.

Variable this : LargeDownload.

(** [if (_this.timeout)] *)
Definition timeout_set : bool :=
  match timeout this with
  | Some ms => negb (ms =? 0)
  | None => false
  end.

Definition timeout_string : string :=
  match timeout this with
  | Some ms => pretty ms
  | None => "undefined"
  end.

(** The closure at the end of the body of [tryDownload] (lines 56-62 and
    101-138): the listeners are attached and the streams are piped. *)
Definition newAttempt : Attempt :=
  {| downloadTimer := None; bar := None; declaredSize := JNum 0;
     downloadedSize := 0; piped := true; finishListener := true;
     requestListener := timeout_set; closeListeners := []; responses := [];
     ended := false; closed := false |}.

Definition tryDownload : Handler := λ s,
  (call (CallTryDownload (length (attempts s))) >>
   set_attempts (attempts s ++ [newAttempt])) s.

Definition cleanup (a : nat) : Handler :=
  call (CallCleanup a) >>
  call (CallUnpipe a) >>
  call (CallRemoveListener a) >>
  update a detach >>
  call (CallEnd a) >>
  with_attempt a (λ x,
    match downloadTimer x with
    | Some t => call (CallClearTimeout t) >> clearTimeout t
    | None => skip
    end) >>
  with_attempt a (λ x,
    match bar x with
    | Some b => call (CallTerminate b)
    | None => skip
    end).

Definition aggregate (n : Z) (err : Error) : Error :=
  mkError ("Could not download " +:+ link this +:+ " in " +:+ pretty n +:+
           " attempts:" +:+ LF +:+ message err).

Definition onError (a : nat) (err : Error) : Handler :=
  call (CallOnError a err) >>
  cleanup a >>
  (λ s, set_retriesDone (retriesDone s + 1) s) >>
  (λ s,
     if retriesDone s <=? retries this then
       ((if onRetry this then call (CallOnRetry err) else skip) >>
        call (CallOnClose a OnCloseTryDownload) >>
        update a (add_closeListener OnCloseTryDownload)) s
     else
       (call (CallReject (aggregate (retriesDone s) err)) >>
        settle (Rejected (aggregate (retriesDone s) err))) s).

Definition sizeMismatch (downloaded : Z) (declared : jsnum) : Error :=
  mkError ("Downloaded file size (" +:+ pretty downloaded +:+
           ") doesn't match " +:+ DQUOTE +:+ "content-length" +:+ DQUOTE +:+
           " header (" +:+ js_to_string declared +:+
           ") in the server response").

Definition onFinish (a : nat) : Handler :=
  with_attempt a (λ x,
    if truthy (declaredSize x) &&
       js_strict_neq (declaredSize x) (JNum (downloadedSize x))
    then onError a (sizeMismatch (downloadedSize x) (declaredSize x))
    else
      cleanup a >>
      call (CallOnClose a OnCloseResolve) >>
      update a (add_closeListener OnCloseResolve)).

Definition timeoutError : Error :=
  mkError ("Download timeout (" +:+ timeout_string +:+ ") reached").

(** The ['request'] listener (lines 105-110), attached only when
    [_this.timeout] is truthy. *)
Definition onRequest (a : nat) : Handler :=
  with_attempt a (λ x,
    if requestListener x then
      λ s,
        let t := length (timers s) in
        (call (CallSetTimeout t (default 0 (timeout this))) >>
         set_timers (timers s ++ [mkTimer a (default 0 (timeout this)) Armed]) >>
         update a (set_downloadTimer (Some t))) s
    else skip).

(** The callback of [setTimeout] (lines 106-109); the runtime runs it for
    an armed timer only, and once. *)
Definition onTimeout (t : nat) : Handler := λ s,
  match timers s !! t with
  | Some tm =>
      match timerState tm with
      | Armed =>
          (set_timers (<[t := set_timerState Fired tm]> (timers s)) >>
           call (CallAbort (timerAttempt tm)) >>
           onError (timerAttempt tm) timeoutError) s
      | _ => s
      end
  | None => s
  end.

(** The ['response'] listener (lines 113-134). *)
Definition onResponse (a : nat) (contentLength : option string)
    (isTTY : bool) : Handler :=
  with_attempt a (λ _,
    let declared := parseInt10 contentLength in
    let doShowProgressBar :=
      isTTY && js_gt declared (minSizeToShowProgress this) in
    update a (set_declaredSize declared) >>
    (if doShowProgressBar then
       λ s,
         let b := progressBars s in
         (call (CallNewProgressBar b declared) >>
          set_progressBars (S b) >>
          update a (set_bar (Some b))) s
     else skip) >>
    update a (add_response doShowProgressBar)).

(** The ['data'] listener of response [r] (lines 128-133). *)
Definition onData (a r : nat) (len : N) : Handler :=
  with_attempt a (λ x,
    match responses x !! r with
    | Some doShowProgressBar =>
        update a (λ y, set_downloadedSize (downloadedSize y + Z.of_N len) y) >>
        (if doShowProgressBar : bool then
           with_attempt a (λ y,
             match bar y with
             | Some b => call (CallTick b len)
             | None => skip
             end)
         else skip)
    | None => skip
    end).

Definition run_closeListener (a : nat) (l : CloseListener) : Handler :=
  match l with
  | OnCloseTryDownload => tryDownload
  | OnCloseResolve => call (CallResolve a) >> settle Resolved
  end.

Fixpoint emit_close (a : nat) (ls : list CloseListener) : Handler :=
  match ls with
  | [] => skip
  | l :: r => run_closeListener a l >> emit_close a r
  end.

(** The writable emits ['close'] once; its listeners run in the order in
    which they were attached. *)
Definition onClose (a : nat) : Handler :=
  with_attempt a (λ x,
    if closed x then skip
    else update a set_closed >> emit_close a (closeListeners x)).

Definition step (ev : Event) : Handler :=
  match ev with
  | EvRequest a => onRequest a
  | EvTimeout t => onTimeout t
  | EvReadableError a e => with_attempt a (λ _, onError a e)
  | EvWritableError a e => with_attempt a (λ _, onError a e)
  | EvResponse a h tty => onResponse a h tty
  | EvData a r len => onData a r len
  | EvFinish a =>
      with_attempt a (λ x, if finishListener x then onFinish a else skip)
  | EvClose a => onClose a
  end.

Fixpoint run (evs : list Event) : Handler :=
  match evs with
  | [] => skip
  | ev :: r => step ev >> run r
  end.

(** [load()]: the promise is created, [retriesDone] is zero, and the first
    [tryDownload()] has run. *)
Definition load : State :=
  tryDownload {| retriesDone := 0; promise := Pending; attempts := [];
                 timers := []; progressBars := 0; calls := [] |}.

End Load.



(** Unfolding of the primitive state updates. *)
Ltac prims :=
  unfold seq_handler, update, with_attempt, clearTimeout, skip, call,
    set_retriesDone, set_attempts, set_timers, set_progressBars, settle in *;
  cbn [retriesDone promise attempts timers progressBars calls] in *.

(** ** Auxiliary definitions: the handlers in closed form *)

Definition cleanup_calls (a : nat) (x : Attempt) : list Call :=
  match bar x with Some b => [CallTerminate b] | None => [] end ++
  match downloadTimer x with Some t => [CallClearTimeout t] | None => [] end ++
  [CallEnd a; CallRemoveListener a; CallUnpipe a; CallCleanup a].

Definition cleanup_timers (x : Attempt) (l : list Timer) : list Timer :=
  match downloadTimer x with
  | Some t => alter cancel t l
  | None => l
  end.

Definition retry_calls (this : LargeDownload) (a : nat) (err : Error) : list Call :=
  CallOnClose a OnCloseTryDownload ::
  (if onRetry this then [CallOnRetry err] else []).

Definition success_state (a : nat) (x : Attempt) (s : State) : State :=
  {| retriesDone := retriesDone s; promise := promise s;
     attempts :=
       alter (add_closeListener OnCloseResolve) a (alter detach a (attempts s));
     timers := cleanup_timers x (timers s);
     progressBars := progressBars s;
     calls := CallOnClose a OnCloseResolve :: cleanup_calls a x ++ calls s |}.

Definition mismatch (x : Attempt) : bool :=
  truthy (declaredSize x) &&
  js_strict_neq (declaredSize x) (JNum (downloadedSize x)).

Definition tick_calls (x : Attempt) (doShowProgressBar : bool) (len : N) :
    list Call :=
  if doShowProgressBar then
    match bar x with
    | Some b => [CallTick b len]
    | None => []
    end
  else [].

(** The number of [tryDownload] listeners among the listeners of a
    ['close'] event. *)
Fixpoint pending (ls : list CloseListener) : nat :=
  match ls with
  | [] => 0
  | OnCloseTryDownload :: r => S (pending r)
  | OnCloseResolve :: r => pending r
  end.

(** The calls made by the listeners of one ['close'] event, newest first. *)
Fixpoint close_calls (a : nat) (n : nat) (ls : list CloseListener) : list Call :=
  match ls with
  | [] => []
  | OnCloseTryDownload :: r => close_calls a (S n) r ++ [CallTryDownload n]
  | OnCloseResolve :: r => close_calls a n r ++ [CallResolve a]
  end.

Definition defaultHttpOptions : gmap string jsval := {[ "retries" := VNumber 0 ]}.

Definition overridden_options : LargeDownloadOptions :=
  {| opt_link := Some "localhost:8080"; opt_destination := Some "fixtures/temp";
     opt_timeout := Some 300000; opt_retries := Some 3;
     opt_httpOptions :=
       Some (<[ "timeout" := VNumber 2000 ]>
             (<[ "headers" := VObject (PCons "x-ololo" (VString "trololo") PNil) ]>
              {[ "retries" := VNumber 3 ]}));
     opt_onRetry := true;
     opt_minSizeToShowProgress := Some JInfinity |}.

Definition overridden : LargeDownload :=
  {| link := "localhost:8080"; destination := "fixtures/temp";
     timeout := Some 300000; retries := 3;
     httpOptions :=
       Object_assign {[ "retries" := VNumber 0 ]} (opt_httpOptions overridden_options);
     onRetry := true; minSizeToShowProgress := JInfinity |}.

(** ** States a download can be in, scripts and observations *)

Inductive reachable (this : LargeDownload) : State → Prop :=
| reachable_load : reachable this (load this)
| reachable_step s ev : reachable this s → reachable this (step this ev s).

(** How an attempt of a failing source fails: the [got] stream emits
    ['error'] (a 404 answer, a reset connection), the write stream emits
    ['error'], or the body ends at a length other than the declared one. *)
Inductive Failure :=
| StreamError (e : Error)
| WriteError (e : Error)
| ShortBody (contentLength : string) (isTTY : bool) (len : N).

Definition failure_events (i : nat) (f : Failure) : list Event :=
  match f with
  | StreamError e => [EvReadableError i e]
  | WriteError e => [EvWritableError i e]
  | ShortBody h tty len => [EvResponse i (Some h) tty; EvData i 0 len; EvFinish i]
  end.



(** A source whose attempt [i] fails as [fail i] says, after which the
    writable of the attempt closes. *)
Definition failing_attempt (fail : nat → Failure) (i : nat) : list Event :=
  failure_events i (fail i) ++ [EvClose i].

Definition failing_source (fail : nat → Failure) (n : nat) : list Event :=
  flat_map (failing_attempt fail) (seq 0 n).








Definition onRetry_arg (c : Call) : option Error :=
  match c with
  | CallOnRetry e => Some e
  | _ => None
  end.

Definition reject_arg (c : Call) : option Error :=
  match c with
  | CallReject e => Some e
  | _ => None
  end.

(** The arguments of the calls of [onRetry] and of [reject], in order. *)
Definition onRetry_args (s : State) : list Error := omap onRetry_arg (trace s).
Definition reject_args (s : State) : list Error := omap reject_arg (trace s).

(** The number of [tryDownload()] calls so far. *)
Definition attempts_made (s : State) : nat := length (attempts s).




(** A download as in the tests of the retries: the link answers 404. *)
Definition notFound : Error := mkError "Response code 404 (Not Found)".

Definition download404 (n : Z) : LargeDownload :=
  {| link := "localhost:8080/404"; destination := "fixtures/temp";
     timeout := None; retries := n;
     httpOptions := defaultHttpOptions; onRetry := true;
     minSizeToShowProgress := JNum 0 |}.

(** The assignments the handlers make to the closure of an attempt. *)
Inductive assignment : (Attempt → Attempt) → Prop :=
| assign_downloadTimer t : assignment (set_downloadTimer t)
| assign_bar b : assignment (set_bar b)
| assign_declaredSize n : assignment (set_declaredSize n)
| assign_downloadedSize (g : Attempt → Z) :
    assignment (λ x, set_downloadedSize (g x) x)
| assign_detach : assignment detach
| assign_closeListener l : assignment (add_closeListener l)
| assign_response d : assignment (add_response d)
| assign_closed : assignment set_closed.

(** How the list of attempts changes over time: closures are assigned to,
    and [tryDownload] appends a new one. *)
Inductive evolves (this : LargeDownload) : list Attempt → list Attempt → Prop :=
| evolves_refl l : evolves this l l
| evolves_alter f a l l' :
    assignment f → evolves this l l' → evolves this l (alter f a l')
| evolves_new l l' :
    evolves this l l' → evolves this l (l' ++ [newAttempt this]).

(** A property of closures that no assignment breaks. *)
Definition stable (P : Attempt → Prop) : Prop :=
  ∀ f x, assignment f → P x → P (f x).

(** The download of the timeout test: the server answers after a second. *)
Definition downloadSlow (n : Z) : LargeDownload :=
  {| link := "localhost:8080/slow"; destination := "fixtures/temp";
     timeout := Some 500; retries := n;
     httpOptions := defaultHttpOptions; onRetry := true;
     minSizeToShowProgress := JNum 0 |}.

Definition hangUp : Error := mkError "socket hang up".

(** The download of the progress-bar tests: 100 MiB from the fixture
    server. *)
Definition downloadFile : LargeDownload :=
  {| link := "localhost:8080"; destination := "fixtures/temp";
     timeout := None; retries := 1;
     httpOptions := defaultHttpOptions; onRetry := false;
     minSizeToShowProgress := JNum 0 |}.

(** ** The events as sequences of elementary transitions *)

Definition cleanup_calls_of (a : nat) (o : option Attempt) : list Call :=
  match o with
  | Some x => cleanup_calls a x
  | None => [CallEnd a; CallRemoveListener a; CallUnpipe a; CallCleanup a]
  end.

Definition cleanup_timers_of (o : option Attempt) (l : list Timer) : list Timer :=
  match o with
  | Some x => cleanup_timers x l
  | None => l
  end.

(** [onError] when a retry is left, and when none is. *)
Definition retry_state (this : LargeDownload) (a : nat) (err : Error)
    (s : State) : State :=
  {| retriesDone := retriesDone s + 1; promise := promise s;
     attempts :=
       alter (add_closeListener OnCloseTryDownload) a (alter detach a (attempts s));
     timers := cleanup_timers_of (attempts s !! a) (timers s);
     progressBars := progressBars s;
     calls := retry_calls this a err ++ cleanup_calls_of a (attempts s !! a) ++
              CallOnError a err :: calls s |}.

Definition reject_state (this : LargeDownload) (a : nat) (err : Error)
    (s : State) : State :=
  {| retriesDone := retriesDone s + 1;
     promise := match promise s with
                | Pending => Rejected (aggregate this (retriesDone s + 1) err)
                | q => q
                end;
     attempts := alter detach a (attempts s);
     timers := cleanup_timers_of (attempts s !! a) (timers s);
     progressBars := progressBars s;
     calls := CallReject (aggregate this (retriesDone s + 1) err) ::
              cleanup_calls_of a (attempts s !! a) ++ CallOnError a err :: calls s |}.

(** The first two statements of the timer's callback. *)
Definition fired_state (t : nat) (tm : Timer) (s : State) : State :=
  call (CallAbort (timerAttempt tm))
    (set_timers (<[t := set_timerState Fired tm]> (timers s)) s).

Definition request_state (this : LargeDownload) (a : nat) (s : State) : State :=
  {| retriesDone := retriesDone s; promise := promise s;
     attempts := alter (set_downloadTimer (Some (length (timers s)))) a (attempts s);
     timers := timers s ++ [mkTimer a (default 0 (timeout this)) Armed];
     progressBars := progressBars s;
     calls := CallSetTimeout (length (timers s)) (default 0 (timeout this)) ::
              calls s |}.

Definition response_state (a : nat) (declared : jsnum)
    (doShowProgressBar : bool) (s : State) : State :=
  if doShowProgressBar then
    {| retriesDone := retriesDone s; promise := promise s;
       attempts :=
         alter (add_response true) a
           (alter (set_bar (Some (progressBars s))) a
              (alter (set_declaredSize declared) a (attempts s)));
       timers := timers s;
       progressBars := S (progressBars s);
       calls := CallNewProgressBar (progressBars s) declared :: calls s |}
  else
    {| retriesDone := retriesDone s; promise := promise s;
       attempts :=
         alter (add_response false) a
           (alter (set_declaredSize declared) a (attempts s));
       timers := timers s;
       progressBars := progressBars s;
       calls := calls s |}.

Definition data_state (a : nat) (x : Attempt) (doShowProgressBar : bool)
    (len : N) (s : State) : State :=
  {| retriesDone := retriesDone s; promise := promise s;
     attempts :=
       alter (λ y, set_downloadedSize (downloadedSize y + Z.of_N len) y)
         a (attempts s);
     timers := timers s;
     progressBars := progressBars s;
     calls := tick_calls x doShowProgressBar len ++ calls s |}.

Inductive transition (this : LargeDownload) : State → State → Prop :=
| tr_error s a x err :
    attempts s !! a = Some x →
    transition this s (onError this a err s)
| tr_timeout s t tm :
    timers s !! t = Some tm → timerState tm = Armed →
    transition this s
      (onError this (timerAttempt tm) (timeoutError this) (fired_state t tm s))
| tr_success s a x :
    attempts s !! a = Some x → finishListener x = true → mismatch x = false →
    transition this s (success_state a x s)
| tr_request s a x :
    attempts s !! a = Some x → requestListener x = true →
    transition this s (request_state this a s)
| tr_response s a x declared doShowProgressBar :
    attempts s !! a = Some x →
    transition this s (response_state a declared doShowProgressBar s)
| tr_data s a x r doShowProgressBar len :
    attempts s !! a = Some x → responses x !! r = Some doShowProgressBar →
    transition this s (data_state a x doShowProgressBar len s)
| tr_closed s a x :
    attempts s !! a = Some x → closed x = false →
    transition this s (update a set_closed s)
| tr_tryDownload s :
    transition this s (tryDownload this s)
| tr_resolve s a x :
    attempts s !! a = Some x → closed x = true →
    OnCloseResolve ∈ closeListeners x →
    transition this s (settle Resolved (call (CallResolve a) s)).

(** ** Outcomes in the list of calls *)

(** Attempt [a] has failed: [onError] has run in its closure. *)
Definition failed (a : nat) (l : list Call) : Prop :=
  ∃ e, CallOnError a e ∈ l.

(** Attempt [a] has succeeded: [onFinish] has attached [resolve] to the
    ['close'] event of its writable (line 98). *)
Definition succeeded (a : nat) (l : list Call) : Prop :=
  CallOnClose a OnCloseResolve ∈ l.

Definition is_failure (c : Call) : bool :=
  match c with
  | CallOnError _ _ => true
  | _ => false
  end.

Definition is_failure_of (a : nat) (c : Call) : bool :=
  match c with
  | CallOnError b _ => bool_decide (a = b)
  | _ => false
  end.

Definition is_success_of (a : nat) (c : Call) : bool :=
  match c with
  | CallOnClose b OnCloseResolve => bool_decide (a = b)
  | _ => false
  end.

Definition is_terminate (b : nat) (c : Call) : bool :=
  match c with
  | CallTerminate b' => bool_decide (b = b')
  | _ => false
  end.

Definition is_settling (c : Call) : bool :=
  match c with
  | CallResolve _ | CallReject _ => true
  | _ => false
  end.

Fixpoint count (p : Call → bool) (l : list Call) : nat :=
  match l with
  | [] => 0
  | c :: r => (if p c then 1 else 0) + count p r
  end.

(** The outcomes consumed by the retry logic for attempt [a]. *)
Definition failures (a : nat) (s : State) : nat := count (is_failure_of a) (calls s).
Definition successes (a : nat) (s : State) : nat := count (is_success_of a) (calls s).

(** In a list of calls, newest first: a success of an attempt has no failure
    of that attempt before it. *)
Fixpoint success_first (l : list Call) : Prop :=
  match l with
  | [] => True
  | c :: older =>
      (∀ a, c = CallOnClose a OnCloseResolve → ¬ failed a older) ∧
      success_first older
  end.

(** What must have been called for a listener to be on the ['close'] event
    of the writable of attempt [a]. *)
Definition listened (a : nat) (l : CloseListener) (cs : list Call) : Prop :=
  match l with
  | OnCloseTryDownload => failed a cs
  | OnCloseResolve => succeeded a cs
  end.

Record coherent (s : State) : Prop := {
  coh_failed : ∀ a x,
    failed a (calls s) → attempts s !! a = Some x → finishListener x = false;
  coh_succeeded : ∀ a x,
    succeeded a (calls s) → attempts s !! a = Some x → finishListener x = false;
  coh_listener : ∀ a x l,
    attempts s !! a = Some x → l ∈ closeListeners x → listened a l (calls s);
  coh_resolve : ∀ a, CallResolve a ∈ calls s → succeeded a (calls s);
  coh_promise : promise s = Resolved → ∃ a, CallResolve a ∈ calls s;
  coh_order : success_first (calls s);
  coh_failed_lt : ∀ a, failed a (calls s) → (a < length (attempts s))%nat;
  coh_succeeded_lt : ∀ a, succeeded a (calls s) → (a < length (attempts s))%nat;
  coh_timers : ∀ t tm,
    timers s !! t = Some tm → (timerAttempt tm < length (attempts s))%nat;
}.

Ltac no_member H :=
  repeat (apply elem_of_cons in H as [H|H]; [discriminate H|]);
  by apply elem_of_nil in H.

(** [y] is a later value of the closure [x]: the ['finish'] listener is not
    re-attached, and a listener is attached to ['close'] only under [ok]. *)
Definition later (ok : CloseListener → Prop) (x y : Attempt) : Prop :=
  (finishListener y = true → finishListener x = true) ∧
  (∀ l, l ∈ closeListeners y → l ∈ closeListeners x ∨ ok l).

(** Assignments to closures in which a listener [l] is attached to the
    ['close'] event of attempt [a] only under [ok a l]. *)
Inductive assigned (ok : nat → CloseListener → Prop) :
    list Attempt → list Attempt → Prop :=
| assigned_refl l : assigned ok l l
| assigned_alter f a l l' :
    assignment f →
    (∀ x, closeListeners (f x) = closeListeners x) →
    assigned ok l l' →
    assigned ok l (alter f a l')
| assigned_listener lst a l l' :
    ok a lst →
    assigned ok l l' →
    assigned ok l (alter (add_closeListener lst) a l').

Ltac case_calls H :=
  unfold retry_calls, cleanup_calls_of, cleanup_calls, tick_calls in H;
  repeat match type of H with
         | context [match ?o with _ => _ end] => destruct o
         | context [if ?b then _ else _] => destruct b
         end;
  simpl in H.

Ltac quiet :=
  let H := fresh "H" in
  let e := fresh "e" in
  first [intros [e H] | intros H];
  unfold succeeded in H; case_calls H; no_member H.

(** The counters agree with the calls made. *)
Record counted (s : State) : Prop := {
  cnt_retriesDone : retriesDone s = Z.of_nat (count is_failure (calls s));
  cnt_promise : promise s = Pending ↔ count is_settling (calls s) = 0%nat;
  cnt_pending : ∀ a x,
    attempts s !! a = Some x →
    (pending (closeListeners x) ≤ failures a s)%nat;
  cnt_success : ∀ a x,
    attempts s !! a = Some x →
    (successes a s ≤ if finishListener x then 0 else 1)%nat;
  cnt_success_lt : ∀ a,
    (length (attempts s) ≤ a)%nat → successes a s = 0%nat;
}.

Definition fin_weight (x : Attempt) : nat := if finishListener x then 0 else 1.

(** The writables that have not emitted ['close']. *)
Definition open_writers (s : State) : nat :=
  length (filter (λ x, closed x = false) (attempts s)).

(** The outcomes of attempt [a] that the retry logic has consumed. *)
Definition outcomes (a : nat) (s : State) : nat :=
  (failures a s + successes a s)%nat.

(** An event that ends the transfer of attempt [a]: the writable finishes,
    or one of the streams fails. *)
Definition terminal (a : nat) (ev : Event) : Prop :=
  ev = EvFinish a ∨ (∃ e, ev = EvReadableError a e) ∨ (∃ e, ev = EvWritableError a e).

(** The timeout test with [retries] retries: the timer of attempt 0 fires
    before the response, the aborted request makes the stream emit
    ['error'], and then the writable closes. *)
Definition slow_timeout_then_error : list Event :=
  [EvRequest 0; EvTimeout 0; EvReadableError 0 hangUp].

Definition after_double_failure (n : Z) : State :=
  run (downloadSlow n) slow_timeout_then_error (load (downloadSlow n)).



(** ** Teardown and the progress bar *)

(** A download with a progress bar (100 MiB on a terminal) whose disk fills
    up after the first chunk; a second chunk still arrives, and then the
    connection is reset. *)
Definition diskFull : Error := mkError "ENOSPC: no space left on device, write".
Definition connectionReset : Error := mkError "read ECONNRESET".

Definition write_error_then_reset : list Event :=
  [EvResponse 0 (Some "104857600") true; EvData 0 0 65536;
   EvWritableError 0 diskFull; EvData 0 0 65536;
   EvReadableError 0 connectionReset].

Definition after_two_teardowns : State :=
  run downloadFile write_error_then_reset (load downloadFile).

Definition is_progress (c : Call) : bool :=
  match c with
  | CallNewProgressBar _ _ | CallTick _ _ | CallTerminate _ => true
  | _ => false
  end.

Definition progress_only (c : Call) : option Call :=
  if is_progress c then Some c else None.

(** The calls made on the [progress] module, in order. *)
Definition progress_calls (s : State) : list Call := omap progress_only (trace s).

Definition is_cleanup (a : nat) (c : Call) : bool :=
  match c with
  | CallCleanup a' => bool_decide (a = a')
  | _ => false
  end.

(** Every progress bar held by a closure was constructed. *)
Definition bars_created (s : State) : Prop :=
  ∀ a x b, attempts s !! a = Some x → bar x = Some b →
           ∃ total, CallNewProgressBar b total ∈ calls s.

(** [cleanup()] called [n] times in the closure of attempt [a]. *)
Fixpoint cleanups (n : nat) (a : nat) (s : State) : State :=
  match n with
  | O => s
  | S m => cleanup a (cleanups m a s)
  end.

(** One transfer of attempt [a]: the response arrives, then the chunks,
    then the event that ends it. *)
Definition transfer (a : nat) (h : option string) (tty : bool)
    (chunks : list N) (term : Event) : list Event :=
  EvResponse a h tty :: (EvData a 0 <$> chunks) ++ [term].

(** A closure that has seen no response yet. *)
Definition fresh (x : Attempt) : Prop :=
  bar x = None ∧ responses x = [] ∧ finishListener x = true.

(** The event ends attempt [a]: a terminal event of its streams, or the
    expiry of its armed timer. *)
Definition ends (s : State) (a : nat) (ev : Event) : Prop :=
  terminal a ev ∨
  ∃ t tm, ev = EvTimeout t ∧ timers s !! t = Some tm ∧
          timerState tm = Armed ∧ timerAttempt tm = a.

Definition nonnegative (n : jsnum) : Prop :=
  match n with
  | JNum m => 0 <= m
  | JInfinity => True
  | JNaN => False
  end.

Definition bar_calls (b : option nat) (f : nat → list Call) : list Call :=
  match b with
  | Some n => f n
  | None => []
  end.

(** A download with a progress bar and a timeout: the timer fires after the
    first chunk, and ending the writable then fails because the disk is
    full. *)
Definition timeout_then_write_error : list Event :=
  [EvRequest 0; EvResponse 0 (Some "104857600") true; EvData 0 0 65536;
   EvTimeout 0; EvWritableError 0 diskFull].

Definition after_two_failures : State :=
  run (downloadSlow 3) timeout_then_write_error (load (downloadSlow 3)).

(** ** Options, budget and sizes *)

(** [! v] for an optional string: [undefined] and the empty string. *)
Definition falsy (v : option string) : Prop := v = None ∨ v = Some EmptyString.

(** An instance handed to the constructor as its options: every field of
    the instance is an own property of it ([retries] included), and
    [timeout] is [undefined] when the instance has none. *)
Definition as_options (d : LargeDownload) : LargeDownloadOptions :=
  {| opt_link := Some (link d);
     opt_destination := Some (destination d);
     opt_timeout := timeout d;
     opt_retries := Some (retries d);
     opt_httpOptions := Some (httpOptions d);
     opt_onRetry := onRetry d;
     opt_minSizeToShowProgress := Some (minSizeToShowProgress d) |}.

(** The number of bytes in a list of chunks. *)
Definition total (chunks : list N) : N := foldr N.add 0%N chunks.

(** ** The retry budget *)

Definition is_schedule (c : Call) : bool :=
  match c with
  | CallOnClose _ OnCloseTryDownload => true
  | _ => false
  end.

Definition is_onRetry (c : Call) : bool :=
  match c with
  | CallOnRetry _ => true
  | _ => false
  end.

Definition is_reject (c : Call) : bool :=
  match c with
  | CallReject _ => true
  | _ => false
  end.

(** The retries that [++retriesDone <= _this.retries] lets through: a
    negative [retries] lets none through. *)
Definition budget (this : LargeDownload) : Z := Z.max 0 (retries this).

(** The [tryDownload] listeners that can still run: those attached to the
    ['close'] event of a writable that has not closed. *)
Definition waiting_of (x : Attempt) : nat :=
  if closed x then 0%nat else pending (closeListeners x).

Definition waiting (l : list Attempt) : nat := sum_list_with waiting_of l.

(** The counters of the retry logic agree with the budget. *)
Record budgeted (this : LargeDownload) (s : State) : Prop := {
  bud_retriesDone : 0 <= retriesDone s;
  bud_scheduled :
    Z.of_nat (count is_schedule (calls s)) = Z.min (retriesDone s) (budget this);
  bud_attempts :
    (1 ≤ attempts_made s)%nat ∧
    (attempts_made s + waiting (attempts s) ≤ 1 + count is_schedule (calls s))%nat;
  bud_onRetry :
    count is_onRetry (calls s) =
    if onRetry this then count is_schedule (calls s) else 0%nat;
  bud_reject :
    Z.of_nat (count is_reject (calls s)) =
    retriesDone s - Z.min (retriesDone s) (budget this);
}.

(** What a rejection says: the promise is pending only while the failures
    are within the budget, and a rejection carries the error of the
    failure that exceeded it. *)
Record rejection (this : LargeDownload) (s : State) : Prop := {
  rej_retriesDone : 0 <= retriesDone s;
  rej_pending : promise s = Pending → retriesDone s <= budget this;
  rej_rejected : ∀ e, promise s = Rejected e →
    ∃ a err, e = aggregate this (budget this + 1) err ∧
             CallOnError a err ∈ calls s;
}.

(** ** Transfers *)

(** The calls of [bar.tick] for a list of chunks, in order. *)
Definition ticks (x : Attempt) (doShowProgressBar : bool) (chunks : list N) :
    list Call :=
  flat_map (tick_calls x doShowProgressBar) chunks.

(** The state after the ['data'] listener of a response has received the
    chunks. *)
Definition received (a : nat) (x : Attempt) (doShowProgressBar : bool)
    (chunks : list N) (s : State) : State :=
  {| retriesDone := retriesDone s; promise := promise s;
     attempts :=
       <[a := set_downloadedSize (downloadedSize x + Z.of_N (total chunks)) x]>
         (attempts s);
     timers := timers s;
     progressBars := progressBars s;
     calls := reverse (ticks x doShowProgressBar chunks) ++ calls s |}.

(** A transfer of attempt [a] that runs to its end: the request is
    dispatched, the response and the chunks arrive, the writable finishes
    and closes. *)
Definition complete_transfer (a : nat) (h : option string) (tty : bool)
    (chunks : list N) : list Event :=
  EvRequest a :: EvResponse a h tty :: (EvData a 0 <$> chunks) ++
  [EvFinish a; EvClose a].

(** The timer that the ['request'] event of attempt [a] arms, once
    cleared; there is none without a timeout. *)
Definition cleared_timer (this : LargeDownload) (a : nat) : list Timer :=
  if timeout_set this then [mkTimer a (default 0 (timeout this)) Cleared] else [].

(** The download of the progress-bar tests after its response, on a
    terminal, and the closure of its attempt. *)
Definition responded : State :=
  step downloadFile (EvResponse 0 (Some "104857600") true) (load downloadFile).

Definition responded_attempt : Attempt :=
  add_response true
    (set_bar (Some 0%nat)
       (set_declaredSize (JNum 104857600) (newAttempt downloadFile))).

(** An attempt succeeds and, before its writable closes, the writable
    fails. *)
Definition finish_error_close (a : nat) (e : Error) : list Event :=
  [EvFinish a; EvWritableError a e; EvClose a].

(** Options with link and destination only, as in the test of the default
    values, and the same with [retries: 0] and an [onRetry] callback for
    the link that answers 404. The constructor builds [downloadFile] from
    the first and [download404 0] from the second. *)
Definition default_options : LargeDownloadOptions :=
  {| opt_link := Some "localhost:8080"; opt_destination := Some "fixtures/temp";
     opt_timeout := None; opt_retries := None; opt_httpOptions := None;
     opt_onRetry := false; opt_minSizeToShowProgress := None |}.

Definition no_retry_options : LargeDownloadOptions :=
  {| opt_link := Some "localhost:8080/404";
     opt_destination := Some "fixtures/temp";
     opt_timeout := None; opt_retries := Some 0; opt_httpOptions := None;
     opt_onRetry := true; opt_minSizeToShowProgress := None |}.

(** With the default options: the request is dispatched, the stream fails,
    the writable closes and the retry starts. With [retries: 0]: the
    stream fails and the writable closes. *)
Definition after_default_retry : State :=
  run downloadFile [EvRequest 0; EvReadableError 0 notFound; EvClose 0]
    (load downloadFile).

Definition after_no_retry : State :=
  run (download404 0) [EvReadableError 0 notFound; EvClose 0]
    (load (download404 0)).

(** ** The handlers in closed form *)

Section Facts.

Variable this : LargeDownload.

Lemma cleanup_eq s a x :
  attempts s !! a = Some x →
  cleanup a s =
    {| retriesDone := retriesDone s; promise := promise s;
       attempts := alter detach a (attempts s);
       timers := cleanup_timers x (timers s);
       progressBars := progressBars s;
       calls := cleanup_calls a x ++ calls s |}.
Proof.
  intros Hx. unfold cleanup, cleanup_calls, cleanup_timers, seq_handler,
    with_attempt, update, call, set_attempts. simpl.
  rewrite list_lookup_alter_eq, Hx. simpl.
  destruct (downloadTimer x); simpl; rewrite list_lookup_alter_eq, Hx; simpl;
    destruct (bar x); reflexivity.
Qed.

Lemma onError_eq s a x err :
  attempts s !! a = Some x →
  onError this a err s =
    if retriesDone s + 1 <=? retries this then
      {| retriesDone := retriesDone s + 1; promise := promise s;
         attempts :=
           alter (add_closeListener OnCloseTryDownload) a
             (alter detach a (attempts s));
         timers := cleanup_timers x (timers s);
         progressBars := progressBars s;
         calls := retry_calls this a err ++ cleanup_calls a x ++
                  CallOnError a err :: calls s |}
    else
      {| retriesDone := retriesDone s + 1;
         promise := match promise s with
                    | Pending => Rejected (aggregate this (retriesDone s + 1) err)
                    | q => q
                    end;
         attempts := alter detach a (attempts s);
         timers := cleanup_timers x (timers s);
         progressBars := progressBars s;
         calls := CallReject (aggregate this (retriesDone s + 1) err) ::
                  cleanup_calls a x ++ CallOnError a err :: calls s |}.
Proof.
  intros Hx. unfold onError, seq_handler.
  rewrite (cleanup_eq _ a x) by exact Hx.
  unfold set_retriesDone; simpl.
  destruct (retriesDone s + 1 <=? retries this); [|reflexivity].
  unfold retry_calls. destruct (onRetry this); reflexivity.
Qed.

Lemma onFinish_eq s a x :
  attempts s !! a = Some x →
  onFinish this a s =
    if mismatch x
    then onError this a (sizeMismatch (downloadedSize x) (declaredSize x)) s
    else success_state a x s.
Proof.
  intros Hx. unfold onFinish, with_attempt. rewrite Hx. fold (mismatch x).
  destruct (mismatch x); [reflexivity|].
  unfold seq_handler. rewrite (cleanup_eq _ a x) by exact Hx. reflexivity.
Qed.

Lemma onRequest_eq s a x :
  attempts s !! a = Some x →
  onRequest this a s =
    if requestListener x then
      {| retriesDone := retriesDone s; promise := promise s;
         attempts := alter (set_downloadTimer (Some (length (timers s)))) a (attempts s);
         timers := timers s ++ [mkTimer a (default 0 (timeout this)) Armed];
         progressBars := progressBars s;
         calls := CallSetTimeout (length (timers s)) (default 0 (timeout this)) ::
                  calls s |}
    else s.
Proof.
  intros Hx. unfold onRequest, with_attempt. rewrite Hx.
  destruct (requestListener x); reflexivity.
Qed.

Lemma onResponse_eq s a x h tty :
  attempts s !! a = Some x →
  onResponse this a h tty s =
    let declared := parseInt10 h in
    if tty && js_gt declared (minSizeToShowProgress this) then
      {| retriesDone := retriesDone s; promise := promise s;
         attempts :=
           alter (add_response true) a
             (alter (set_bar (Some (progressBars s))) a
                (alter (set_declaredSize declared) a (attempts s)));
         timers := timers s;
         progressBars := S (progressBars s);
         calls := CallNewProgressBar (progressBars s) declared :: calls s |}
    else
      {| retriesDone := retriesDone s; promise := promise s;
         attempts :=
           alter (add_response false) a
             (alter (set_declaredSize declared) a (attempts s));
         timers := timers s;
         progressBars := progressBars s;
         calls := calls s |}.
Proof.
  intros Hx. unfold onResponse, with_attempt. rewrite Hx. simpl.
  destruct (tty && js_gt (parseInt10 h) (minSizeToShowProgress this));
    reflexivity.
Qed.

Lemma onData_eq s a x r len :
  attempts s !! a = Some x →
  onData a r len s =
    match responses x !! r with
    | Some doShowProgressBar =>
        {| retriesDone := retriesDone s; promise := promise s;
           attempts :=
             alter (λ y, set_downloadedSize (downloadedSize y + Z.of_N len) y)
               a (attempts s);
           timers := timers s;
           progressBars := progressBars s;
           calls := tick_calls x doShowProgressBar len ++ calls s |}
    | None => s
    end.
Proof.
  intros Hx. unfold onData, with_attempt. rewrite Hx.
  destruct (responses x !! r) as [[]|]; [|reflexivity..].
  unfold seq_handler, update, set_attempts, tick_calls. simpl.
  rewrite list_lookup_alter_eq, Hx. simpl.
  destruct (bar x); reflexivity.
Qed.

Lemma emit_close_retriesDone a ls s :
  retriesDone (emit_close this a ls s) = retriesDone s.
Proof. revert s; induction ls as [|[] ls IH]; intros s; simpl; try done;
  unfold seq_handler; rewrite IH; reflexivity. Qed.

Lemma emit_close_timers a ls s :
  timers (emit_close this a ls s) = timers s.
Proof. revert s; induction ls as [|[] ls IH]; intros s; simpl; try done;
  unfold seq_handler; rewrite IH; reflexivity. Qed.

Lemma emit_close_progressBars a ls s :
  progressBars (emit_close this a ls s) = progressBars s.
Proof. revert s; induction ls as [|[] ls IH]; intros s; simpl; try done;
  unfold seq_handler; rewrite IH; reflexivity. Qed.

Lemma emit_close_attempts a ls s :
  attempts (emit_close this a ls s) =
  attempts s ++ replicate (pending ls) (newAttempt this).
Proof.
  revert s; induction ls as [|[] ls IH]; intros s; simpl.
  - by rewrite app_nil_r.
  - unfold seq_handler. rewrite IH. simpl. by rewrite <- app_assoc.
  - unfold seq_handler. rewrite IH. reflexivity.
Qed.

Lemma emit_close_promise a ls s :
  promise (emit_close this a ls s) =
  if bool_decide (OnCloseResolve ∈ ls)
  then match promise s with Pending => Resolved | q => q end
  else promise s.
Proof.
  revert s; induction ls as [|l ls IH]; intros s.
  - reflexivity.
  - cbn [emit_close]. unfold seq_handler. rewrite IH.
    destruct l; cbn [run_closeListener].
    + destruct (bool_decide_reflect (OnCloseResolve ∈ ls)) as [Hin|Hin].
      * rewrite bool_decide_eq_true_2 by (by right). reflexivity.
      * rewrite bool_decide_eq_false_2; [reflexivity|].
        intros [?|?]%elem_of_cons; [discriminate|contradiction].
    + rewrite (bool_decide_eq_true_2 (OnCloseResolve ∈ OnCloseResolve :: ls))
        by (by left).
      unfold seq_handler, settle, call; cbn.
      destruct (bool_decide (OnCloseResolve ∈ ls)), (promise s); reflexivity.
Qed.

Lemma emit_close_calls a ls s :
  calls (emit_close this a ls s) =
  close_calls a (length (attempts s)) ls ++ calls s.
Proof.
  revert s; induction ls as [|[] ls IH]; intros s; simpl.
  - reflexivity.
  - unfold seq_handler. rewrite IH. simpl.
    rewrite length_app, <- app_assoc. simpl.
    by replace (length (attempts s) + 1)%nat with (S (length (attempts s))) by lia.
  - unfold seq_handler. rewrite IH. simpl. by rewrite <- app_assoc.
Qed.

Lemma onClose_eq s a x :
  attempts s !! a = Some x →
  onClose this a s =
    if closed x then s
    else emit_close this a (closeListeners x) (update a set_closed s).
Proof.
  intros Hx. unfold onClose, with_attempt. rewrite Hx.
  destruct (closed x); reflexivity.
Qed.

Lemma onTimeout_eq s t tm :
  timers s !! t = Some tm →
  onTimeout this t s =
    match timerState tm with
    | Armed =>
        onError this (timerAttempt tm) (timeoutError this)
          (call (CallAbort (timerAttempt tm))
             (set_timers (<[t := set_timerState Fired tm]> (timers s)) s))
    | _ => s
    end.
Proof.
  intros Ht. unfold onTimeout. rewrite Ht.
  destruct (timerState tm); reflexivity.
Qed.

End Facts.

(** ** The constructor's transport options *)

(** C9. With no [httpOptions] the options handed to [got.stream] are exactly
    [{retries: 0}]; with [httpOptions] every supplied key, [retries]
    included, carries the supplied value, and a key that was not supplied
    keeps the default. *)
Theorem httpOptions_default_and_override opts d :
  constructor opts = inr d →
  (opt_httpOptions opts = None → httpOptions d = defaultHttpOptions) ∧
  (∀ supplied, opt_httpOptions opts = Some supplied →
     ∀ k, httpOptions d !! k =
          match supplied !! k with
          | Some v => Some v
          | None => defaultHttpOptions !! k
          end).
Proof.
  unfold constructor. intros Hc.
  destruct (nonempty (opt_link opts)); [|discriminate].
  destruct (nonempty (opt_destination opts)); [|discriminate].
  injection Hc as <-. simpl. split.
  - intros ->. reflexivity.
  - intros supplied -> k. simpl. unfold defaultHttpOptions.
    rewrite lookup_union. destruct (supplied !! k); simpl.
    + by destruct ({[ "retries" := VNumber 0 ]} !! k : option jsval).
    + by destruct ({[ "retries" := VNumber 0 ]} !! k : option jsval).
Qed.

Lemma httpOptions_default_and_override_witness :
  (opt_httpOptions overridden_options = None →
   httpOptions overridden = defaultHttpOptions) ∧
  (∀ supplied, opt_httpOptions overridden_options = Some supplied →
     ∀ k, httpOptions overridden !! k =
          match supplied !! k with
          | Some v => Some v
          | None => defaultHttpOptions !! k
          end).
Proof.
  apply (httpOptions_default_and_override overridden_options overridden).
  reflexivity.
Defined.

Example httpOptions_overridden_retries :
  httpOptions overridden !! "retries" = Some (VNumber 3).
Proof. reflexivity. Qed.

(** ** Runs *)

Lemma js_strict_neq_num d z :
  truthy d = true → (js_strict_neq d (JNum z) = true ↔ d ≠ JNum z).
Proof.
  destruct d as [| |y]; simpl; try done.
  intros _. rewrite negb_true_iff, Z.eqb_neq. split; congruence.
Qed.

Lemma mismatch_spec x :
  mismatch x = true ↔
  truthy (declaredSize x) = true ∧ declaredSize x ≠ JNum (downloadedSize x).
Proof.
  unfold mismatch. rewrite andb_true_iff. split.
  - intros [Ht Hn]. split; [done|]. by apply js_strict_neq_num.
  - intros [Ht Hn]. split; [done|]. by apply js_strict_neq_num.
Qed.


Lemma omap_reverse {A B} (f : A → option B) (l : list A) :
  omap f (reverse l) = reverse (omap f l).
Proof.
  induction l as [|c l IH]; [done|].
  rewrite reverse_cons, omap_app, IH. simpl.
  destruct (f c); simpl; by rewrite ?reverse_cons, ?app_nil_r.
Qed.


Section Runs.

Variable this : LargeDownload.

Lemma run_app evs1 evs2 s :
  run this (evs1 ++ evs2) s = run this evs2 (run this evs1 s).
Proof.
  revert s; induction evs1 as [|ev evs1 IH]; intros s; simpl; [done|].
  unfold seq_handler. apply IH.
Qed.

Lemma reachable_run evs s :
  reachable this s → reachable this (run this evs s).
Proof.
  revert s; induction evs as [|ev evs IH]; intros s Hs; simpl; [done|].
  unfold seq_handler. apply IH. by constructor.
Qed.


Lemma step_writable_error s a x e :
  attempts s !! a = Some x →
  step this (EvWritableError a e) s = onError this a e s.
Proof. intros Hx. simpl. unfold with_attempt. by rewrite Hx. Qed.

Lemma onRetry_cleanup_calls a x : omap onRetry_arg (cleanup_calls a x) = [].
Proof. unfold cleanup_calls. by destruct (bar x), (downloadTimer x). Qed.

Lemma reject_cleanup_calls a x : omap reject_arg (cleanup_calls a x) = [].
Proof. unfold cleanup_calls. by destruct (bar x), (downloadTimer x). Qed.








Lemma cleanup_none s a :
  attempts s !! a = None →
  cleanup a s =
    {| retriesDone := retriesDone s; promise := promise s;
       attempts := alter detach a (attempts s);
       timers := timers s;
       progressBars := progressBars s;
       calls := CallEnd a :: CallRemoveListener a :: CallUnpipe a :: CallCleanup a :: calls s |}.
Proof.
  intros Hx. unfold cleanup. prims.
  repeat (rewrite list_lookup_alter_eq, Hx; cbn). reflexivity.
Qed.

Lemma cleanup_attempts a s :
  attempts (cleanup a s) = alter detach a (attempts s).
Proof.
  destruct (attempts s !! a) as [x|] eqn:Hx.
  - by rewrite (cleanup_eq _ _ _ Hx).
  - by rewrite (cleanup_none _ _ Hx).
Qed.

Lemma cleanup_retriesDone a s : retriesDone (cleanup a s) = retriesDone s.
Proof.
  destruct (attempts s !! a) as [x|] eqn:Hx.
  - by rewrite (cleanup_eq _ _ _ Hx).
  - by rewrite (cleanup_none _ _ Hx).
Qed.

Lemma cleanup_promise a s : promise (cleanup a s) = promise s.
Proof.
  destruct (attempts s !! a) as [x|] eqn:Hx.
  - by rewrite (cleanup_eq _ _ _ Hx).
  - by rewrite (cleanup_none _ _ Hx).
Qed.

Lemma alter_alter {A} (f g : A → A) (a : nat) (l : list A) :
  alter f a (alter g a l) = alter (λ x, f (g x)) a l.
Proof.
  apply list_eq. intros i. destruct (decide (a = i)) as [->|Hne].
  - rewrite !list_lookup_alter_eq. by destruct (l !! i).
  - by rewrite !list_lookup_alter_ne.
Qed.

Lemma onError_none s a err :
  attempts s !! a = None →
  onError this a err s =
    if retriesDone s + 1 <=? retries this then
      {| retriesDone := retriesDone s + 1; promise := promise s;
         attempts :=
           alter (add_closeListener OnCloseTryDownload) a
             (alter detach a (attempts s));
         timers := timers s;
         progressBars := progressBars s;
         calls := retry_calls this a err ++
                  CallEnd a :: CallRemoveListener a :: CallUnpipe a :: CallCleanup a ::
                  CallOnError a err :: calls s |}
    else
      {| retriesDone := retriesDone s + 1;
         promise := match promise s with
                    | Pending => Rejected (aggregate this (retriesDone s + 1) err)
                    | q => q
                    end;
         attempts := alter detach a (attempts s);
         timers := timers s;
         progressBars := progressBars s;
         calls := CallReject (aggregate this (retriesDone s + 1) err) ::
                  CallEnd a :: CallRemoveListener a :: CallUnpipe a :: CallCleanup a ::
                  CallOnError a err :: calls s |}.
Proof.
  intros Hx. unfold onError, seq_handler.
  rewrite (cleanup_none _ a) by exact Hx.
  unfold set_retriesDone; simpl.
  destruct (retriesDone s + 1 <=? retries this); [|reflexivity].
  unfold retry_calls. destruct (onRetry this); reflexivity.
Qed.

Lemma onError_attempts a err s :
  attempts (onError this a err s) =
  alter (λ x, if retriesDone s + 1 <=? retries this
              then add_closeListener OnCloseTryDownload (detach x)
              else detach x) a (attempts s).
Proof.
  destruct (attempts s !! a) as [x|] eqn:Hx.
  - rewrite (onError_eq this _ _ _ _ Hx).
    destruct (retriesDone s + 1 <=? retries this); cbn [attempts];
      by rewrite ?alter_alter.
  - rewrite (onError_none _ _ _ Hx).
    destruct (retriesDone s + 1 <=? retries this); cbn [attempts];
      by rewrite ?alter_alter.
Qed.

Lemma onError_retriesDone a err s :
  retriesDone (onError this a err s) = retriesDone s + 1.
Proof.
  destruct (attempts s !! a) as [x|] eqn:Hx.
  - rewrite (onError_eq this _ _ _ _ Hx).
    by destruct (retriesDone s + 1 <=? retries this).
  - rewrite (onError_none _ _ _ Hx).
    by destruct (retriesDone s + 1 <=? retries this).
Qed.

Lemma onError_length a err s :
  length (attempts (onError this a err s)) = length (attempts s).
Proof. by rewrite onError_attempts, length_alter. Qed.





End Runs.

(** ** How the closures evolve *)

Section Evolution.

Variable this : LargeDownload.

Lemma evolves_trans l1 l2 l3 :
  evolves this l1 l2 → evolves this l2 l3 → evolves this l1 l3.
Proof.
  intros H12 H23. induction H23; [done|..].
  - by apply evolves_alter; [|apply IHevolves].
  - by apply evolves_new, IHevolves.
Qed.

Lemma evolves_alter1 f a l : assignment f → evolves this l (alter f a l).
Proof. intros Hf. apply evolves_alter; [done|constructor]. Qed.

Lemma evolves_replicate l n :
  evolves this l (l ++ replicate n (newAttempt this)).
Proof.
  induction n as [|n IH].
  - rewrite app_nil_r. constructor.
  - replace (S n) with (n + 1)%nat by lia.
    rewrite replicate_add, app_assoc. by apply evolves_new.
Qed.

Lemma evolves_length l l' : evolves this l l' → (length l ≤ length l')%nat.
Proof.
  induction 1; [done|..].
  - by rewrite length_alter.
  - rewrite length_app. simpl. lia.
Qed.

Lemma evolves_Forall (P : Attempt → Prop) l l' :
  stable P → P (newAttempt this) →
  evolves this l l' → Forall P l → Forall P l'.
Proof.
  intros Hst Hnew Hev Hl. induction Hev; [done|..].
  - apply Forall_alter; [by apply IHHev|]. intros x _ Hx. by apply Hst.
  - apply Forall_app. split; [by apply IHHev|]. by constructor.
Qed.

Lemma onError_evolves a err s :
  evolves this (attempts s) (attempts (onError this a err s)).
Proof.
  rewrite onError_attempts.
  destruct (retriesDone s + 1 <=? retries this).
  - rewrite <- (alter_alter (add_closeListener OnCloseTryDownload) detach).
    apply evolves_alter; [constructor|]. apply evolves_alter1. constructor.
  - apply evolves_alter1. constructor.
Qed.

Lemma step_evolves s ev :
  evolves this (attempts s) (attempts (step this ev s)).
Proof.
  destruct ev as [a|t|a e|a e|a h tty|a r len|a|a]; cbn [step].
  - destruct (attempts s !! a) as [x|] eqn:Hx;
      [|unfold onRequest, with_attempt; rewrite Hx; constructor].
    rewrite (onRequest_eq this _ _ _ Hx).
    destruct (requestListener x); [|constructor]. cbn [attempts].
    apply evolves_alter1. constructor.
  - unfold onTimeout. destruct (timers s !! t) as [tm|]; [|constructor].
    destruct (timerState tm); [|constructor..].
    unfold seq_handler.
    apply (onError_evolves _ _
      (call _ (set_timers (<[t:=set_timerState Fired tm]> (timers s)) s))).
  - unfold with_attempt. destruct (attempts s !! a); [|constructor].
    apply onError_evolves.
  - unfold with_attempt. destruct (attempts s !! a); [|constructor].
    apply onError_evolves.
  - destruct (attempts s !! a) as [x|] eqn:Hx;
      [|unfold onResponse, with_attempt; rewrite Hx; constructor].
    rewrite (onResponse_eq this _ _ _ _ _ Hx). cbn zeta.
    destruct (tty && js_gt (parseInt10 h) (minSizeToShowProgress this));
      cbn [attempts]; repeat (apply evolves_alter; [constructor|]); constructor.
  - destruct (attempts s !! a) as [x|] eqn:Hx;
      [|unfold onData, with_attempt; rewrite Hx; constructor].
    rewrite (onData_eq _ _ _ _ _ Hx).
    destruct (responses x !! r); [|constructor]. cbn [attempts].
    apply evolves_alter1.
    apply (assign_downloadedSize (λ y, downloadedSize y + Z.of_N len)).
  - unfold with_attempt. destruct (attempts s !! a) as [x|] eqn:Hx; [|constructor].
    destruct (finishListener x); [|constructor].
    rewrite (onFinish_eq this _ _ _ Hx). destruct (mismatch x).
    + apply onError_evolves.
    + unfold success_state; cbn [attempts].
      repeat (apply evolves_alter; [constructor|]); constructor.
  - destruct (attempts s !! a) as [x|] eqn:Hx;
      [|unfold onClose, with_attempt; rewrite Hx; constructor].
    rewrite (onClose_eq this _ _ _ Hx). destruct (closed x); [constructor|].
    rewrite emit_close_attempts. prims.
    eapply evolves_trans; [|apply evolves_replicate].
    apply evolves_alter1. constructor.
Qed.

Lemma reachable_Forall (P : Attempt → Prop) s :
  stable P → P (newAttempt this) →
  reachable this s → Forall P (attempts s).
Proof.
  intros Hst Hnew. induction 1 as [|s ev Hs IH].
  - unfold load, tryDownload. prims. simpl. by constructor.
  - eapply evolves_Forall; [done..|apply step_evolves|done].
Qed.

Lemma reachable_requestListener s a x :
  reachable this s → attempts s !! a = Some x →
  requestListener x = timeout_set this.
Proof.
  intros Hs Hx.
  refine (Forall_lookup_1 _ _ _ _
            (reachable_Forall (λ x, requestListener x = timeout_set this) s _ _ Hs) Hx).
  - intros f y Hf Hy. by destruct Hf.
  - reflexivity.
Qed.

End Evolution.

(** ** Events as elementary transitions *)

Section Transitions.

Variable this : LargeDownload.

Lemma onError_closed s a err :
  onError this a err s =
  if retriesDone s + 1 <=? retries this
  then retry_state this a err s
  else reject_state this a err s.
Proof.
  unfold retry_state, reject_state.
  destruct (attempts s !! a) as [x|] eqn:Hx.
  - apply (onError_eq this _ _ _ _ Hx).
  - apply (onError_none this _ _ _ Hx).
Qed.

Lemma emit_close_transitions a x ls s :
  attempts s !! a = Some x → closed x = true →
  (∀ l, l ∈ ls → l ∈ closeListeners x) →
  rtc (transition this) s (emit_close this a ls s).
Proof.
  revert s; induction ls as [|l ls IH]; intros s Hx Hc Hin; [constructor|].
  cbn [emit_close]. unfold seq_handler.
  destruct l; cbn [run_closeListener].
  - eapply rtc_l; [apply tr_tryDownload|]. apply IH; [|done|].
    + unfold tryDownload. prims. by apply lookup_app_l_Some.
    + intros l Hl. apply Hin. by right.
  - eapply rtc_l.
    { apply (tr_resolve this s a x Hx Hc). apply Hin. by left. }
    apply IH; [done..|]. intros l Hl. apply Hin. by right.
Qed.

Lemma step_transitions s ev :
  rtc (transition this) s (step this ev s).
Proof.
  destruct ev as [a|t|a e|a e|a h tty|a r len|a|a]; cbn [step].
  - destruct (attempts s !! a) as [x|] eqn:Hx;
      [|unfold onRequest, with_attempt; rewrite Hx; constructor].
    rewrite (onRequest_eq this _ _ _ Hx).
    destruct (requestListener x) eqn:Hr; [|constructor].
    apply rtc_once. by apply (tr_request this s a x).
  - unfold onTimeout. destruct (timers s !! t) as [tm|] eqn:Ht; [|constructor].
    destruct (timerState tm) eqn:Hst; [|constructor..].
    unfold seq_handler.
    apply rtc_once. by apply (tr_timeout this s t tm).
  - unfold with_attempt. destruct (attempts s !! a) as [x|] eqn:Hx; [|constructor].
    apply rtc_once. by apply (tr_error this s a x).
  - unfold with_attempt. destruct (attempts s !! a) as [x|] eqn:Hx; [|constructor].
    apply rtc_once. by apply (tr_error this s a x).
  - destruct (attempts s !! a) as [x|] eqn:Hx;
      [|unfold onResponse, with_attempt; rewrite Hx; constructor].
    rewrite (onResponse_eq this _ _ _ _ _ Hx). cbn zeta.
    apply rtc_once.
    apply (tr_response this s a x (parseInt10 h)
             (tty && js_gt (parseInt10 h) (minSizeToShowProgress this)) Hx).
  - destruct (attempts s !! a) as [x|] eqn:Hx;
      [|unfold onData, with_attempt; rewrite Hx; constructor].
    rewrite (onData_eq _ _ _ _ _ Hx).
    destruct (responses x !! r) as [d|] eqn:Hr; [|constructor].
    apply rtc_once. by apply (tr_data this s a x r d len).
  - unfold with_attempt. destruct (attempts s !! a) as [x|] eqn:Hx; [|constructor].
    destruct (finishListener x) eqn:Hf; [|constructor].
    rewrite (onFinish_eq this _ _ _ Hx). destruct (mismatch x) eqn:Hm.
    + apply rtc_once. by apply (tr_error this s a x).
    + apply rtc_once. by apply tr_success.
  - destruct (attempts s !! a) as [x|] eqn:Hx;
      [|unfold onClose, with_attempt; rewrite Hx; constructor].
    rewrite (onClose_eq this _ _ _ Hx). destruct (closed x) eqn:Hc; [constructor|].
    eapply rtc_l; [by apply (tr_closed this s a x)|].
    apply (emit_close_transitions a (set_closed x)); [|done|done].
    prims. by rewrite list_lookup_alter_eq, Hx.
Qed.

Lemma reachable_transitions s :
  reachable this s →
  rtc (transition this)
    {| retriesDone := 0; promise := Pending; attempts := []; timers := [];
       progressBars := 0; calls := [] |} s.
Proof.
  induction 1 as [|s ev Hs IH].
  - apply rtc_once, tr_tryDownload.
  - etrans; [exact IH|apply step_transitions].
Qed.

(** An invariant of the transitions holds in every reachable state. *)
Lemma reachable_invariant (I : State → Prop) s :
  I {| retriesDone := 0; promise := Pending; attempts := []; timers := [];
       progressBars := 0; calls := [] |} →
  (∀ s s', I s → transition this s s' → I s') →
  reachable this s → I s.
Proof.
  intros H0 Hstep Hs. apply reachable_transitions in Hs.
  induction Hs as [|s1 s2 s3 H12 H23 IH]; [done|]. apply IH. by eapply Hstep.
Qed.

End Transitions.

(** ** Outcomes of an attempt *)

Section Outcomes.

Variable this : LargeDownload.

Lemma lookup_alter_Some (f : Attempt → Attempt) (a i : nat) (l : list Attempt) y :
  alter f a l !! i = Some y →
  ∃ x, l !! i = Some x ∧ y = if decide (a = i) then f x else x.
Proof.
  rewrite list_lookup_alter. case_decide as Hai.
  - subst. destruct (l !! i) as [x|]; [|done]. intros [= <-]. eauto.
  - eauto.
Qed.

Lemma failed_app a l1 l2 : failed a (l1 ++ l2) ↔ failed a l1 ∨ failed a l2.
Proof.
  unfold failed. split.
  - intros [e [H|H]%elem_of_app]; eauto.
  - intros [[e H]|[e H]]; exists e; apply elem_of_app; eauto.
Qed.

Lemma failed_cons a c l :
  failed a (c :: l) ↔ is_failure_of a c = true ∨ failed a l.
Proof.
  unfold failed. split.
  - intros [e [<-|H]%elem_of_cons]; [left|eauto].
    simpl. by apply bool_decide_eq_true.
  - intros [H|[e H]].
    + destruct c; try done. simpl in H. apply bool_decide_eq_true in H as ->.
      eexists. by left.
    + exists e. by right.
Qed.

Lemma succeeded_cons a c l :
  succeeded a (c :: l) ↔ is_success_of a c = true ∨ succeeded a l.
Proof.
  unfold succeeded. rewrite elem_of_cons. split.
  - intros [<-|H]; [left|eauto]. simpl. by apply bool_decide_eq_true.
  - intros [H|H]; [|eauto]. left.
    destruct c as [| | | | | | | | | | | |b []| | |]; try done.
    simpl in H. by apply bool_decide_eq_true in H as ->.
Qed.

Lemma succeeded_app a l1 l2 :
  succeeded a (l1 ++ l2) ↔ succeeded a l1 ∨ succeeded a l2.
Proof. unfold succeeded. apply elem_of_app. Qed.

Lemma failed_cleanup_calls a b o : ¬ failed a (cleanup_calls_of b o).
Proof.
  intros [e H]. destruct o as [x|]; simpl in H.
  - unfold cleanup_calls in H. destruct (bar x), (downloadTimer x); simpl in H;
      no_member H.
  - no_member H.
Qed.

Lemma succeeded_cleanup_calls a b o : ¬ succeeded a (cleanup_calls_of b o).
Proof.
  unfold succeeded. intros H. destruct o as [x|]; simpl in H.
  - unfold cleanup_calls in H. destruct (bar x), (downloadTimer x); simpl in H;
      no_member H.
  - no_member H.
Qed.

Lemma listened_app a l cs1 cs2 :
  listened a l (cs1 ++ cs2) ↔ listened a l cs1 ∨ listened a l cs2.
Proof. destruct l; [apply failed_app|apply succeeded_app]. Qed.

Lemma later_refl ok x : later ok x x.
Proof. split; auto. Qed.

Lemma later_trans ok x y z : later ok x y → later ok y z → later ok x z.
Proof.
  intros [H1 H2] [H3 H4]. split; [auto|].
  intros l Hz. destruct (H4 l Hz); auto.
Qed.

Lemma later_same ok f x :
  assignment f → (∀ x, closeListeners (f x) = closeListeners x) →
  later ok x (f x).
Proof.
  intros Hf Hsame. split; [|rewrite Hsame; auto].
  destruct Hf; simpl; done.
Qed.

Lemma later_add (ok : CloseListener → Prop) lst x :
  ok lst → later ok x (add_closeListener lst x).
Proof.
  intros Hok. split; [done|]. simpl. intros l [H|H]%elem_of_app; [auto|].
  apply list_elem_of_singleton in H. subst l. auto.
Qed.

Lemma success_first_app l1 l2 :
  (∀ a, ¬ succeeded a l1) → success_first l2 → success_first (l1 ++ l2).
Proof.
  intros Hno H2. induction l1 as [|c l1 IH]; [done|]. simpl. split.
  - intros a ->. destruct (Hno a). by left.
  - apply IH. intros a Ha. apply (Hno a). by right.
Qed.

Lemma coherent_step s s' delta :
  coherent s →
  calls s' = delta ++ calls s →
  (length (attempts s) ≤ length (attempts s'))%nat →
  (∀ i y, attempts s' !! i = Some y →
     (∃ x, attempts s !! i = Some x ∧ later (λ l, listened i l delta) x y) ∨
     ((length (attempts s) ≤ i)%nat ∧ closeListeners y = [])) →
  (∀ a, failed a delta ∨ succeeded a delta →
     ∃ y, attempts s' !! a = Some y ∧ finishListener y = false) →
  (∀ a, CallResolve a ∈ delta → succeeded a (calls s)) →
  (promise s' = Resolved → promise s = Resolved ∨ ∃ a, CallResolve a ∈ delta) →
  success_first (delta ++ calls s) →
  (∀ t tm, timers s' !! t = Some tm →
     (timerAttempt tm < length (attempts s'))%nat) →
  coherent s'.
Proof.
  intros [Hf Hs Hl Hr Hp Ho Hfl Hsl Ht] Hc Hlen Hatt Hdec Hres Hprom Hord Htim.
  split; rewrite ?Hc.
  - intros a y [Ha|Ha]%failed_app Hy.
    + destruct (Hdec a) as (y' & Hy' & Hfin); [by left|]. congruence.
    + destruct (Hatt a y Hy) as [(x & Hx & Hlat & _)|[Hge _]].
      * specialize (Hf a x Ha Hx). destruct (finishListener y); [|done].
        rewrite Hlat in Hf; done.
      * specialize (Hfl a Ha). lia.
  - intros a y [Ha|Ha]%succeeded_app Hy.
    + destruct (Hdec a) as (y' & Hy' & Hfin); [by right|]. congruence.
    + destruct (Hatt a y Hy) as [(x & Hx & Hlat & _)|[Hge _]].
      * specialize (Hs a x Ha Hx). destruct (finishListener y); [|done].
        rewrite Hlat in Hs; done.
      * specialize (Hsl a Ha). lia.
  - intros a y l Hy Hin. apply listened_app.
    destruct (Hatt a y Hy) as [(x & Hx & _ & Hlat)|[_ Hnil]].
    + destruct (Hlat l Hin) as [Hx'|Hd]; [right; by eapply Hl|by left].
    + rewrite Hnil in Hin. by apply elem_of_nil in Hin.
  - intros a [Ha|Ha]%elem_of_app; apply succeeded_app; right; auto.
  - intros Hp'. destruct (Hprom Hp') as [Hp0|[a Ha]].
    + destruct (Hp Hp0) as [a Ha]. exists a. apply elem_of_app. by right.
    + exists a. apply elem_of_app. by left.
  - done.
  - intros a [Ha|Ha]%failed_app.
    + destruct (Hdec a) as (y & Hy & _); [by left|]. by eapply lookup_lt_Some.
    + specialize (Hfl a Ha). lia.
  - intros a [Ha|Ha]%succeeded_app.
    + destruct (Hdec a) as (y & Hy & _); [by right|]. by eapply lookup_lt_Some.
    + specialize (Hsl a Ha). lia.
  - done.
Qed.

Lemma assigned_later ok l l' :
  assigned ok l l' →
  ∀ i y, l' !! i = Some y → ∃ x, l !! i = Some x ∧ later (ok i) x y.
Proof.
  induction 1 as [l|f a l l' Hf Hs Hl IH|lst a l l' Hok Hl IH]; intros i y Hy.
  - exists y. split; [done|apply later_refl].
  - apply lookup_alter_Some in Hy as (x' & Hx' & ->).
    destruct (IH i x' Hx') as (x & Hx & Hlat). exists x. split; [done|].
    eapply later_trans; [exact Hlat|]. case_decide as Hai; [|apply later_refl].
    by apply later_same.
  - apply lookup_alter_Some in Hy as (x' & Hx' & ->).
    destruct (IH i x' Hx') as (x & Hx & Hlat). exists x. split; [done|].
    eapply later_trans; [exact Hlat|]. case_decide as Hai; [|apply later_refl].
    subst a. by apply later_add.
Qed.

Lemma assigned_length ok l l' : assigned ok l l' → length l' = length l.
Proof. induction 1; [done|..]; by rewrite length_alter. Qed.

Lemma coherent_assigned s s' delta :
  coherent s →
  calls s' = delta ++ calls s →
  assigned (λ i l, listened i l delta) (attempts s) (attempts s') →
  (∀ a, failed a delta ∨ succeeded a delta →
     ∃ y, attempts s' !! a = Some y ∧ finishListener y = false) →
  (∀ a, CallResolve a ∈ delta → succeeded a (calls s)) →
  (promise s' = Resolved → promise s = Resolved ∨ ∃ a, CallResolve a ∈ delta) →
  success_first (delta ++ calls s) →
  (∀ t tm, timers s' !! t = Some tm →
     (timerAttempt tm < length (attempts s))%nat) →
  coherent s'.
Proof.
  intros Hcoh Hc Hass Hdec Hres Hprom Hord Htim.
  apply (coherent_step s s' delta); try done.
  - by rewrite (assigned_length _ _ _ Hass).
  - intros i y Hy. left. by apply (assigned_later _ _ _ Hass).
  - intros t tm Ht. rewrite (assigned_length _ _ _ Hass). by eapply Htim.
Qed.

Lemma timers_cleanup o (l : list Timer) t tm :
  cleanup_timers_of o l !! t = Some tm →
  ∃ tm0, l !! t = Some tm0 ∧ timerAttempt tm = timerAttempt tm0.
Proof.
  destruct o as [x|]; simpl; [|eauto]. unfold cleanup_timers.
  destruct (downloadTimer x) as [t'|]; [|eauto].
  rewrite list_lookup_alter. case_decide; [|eauto]. subst.
  destruct (l !! t) as [tm0|]; [|done]. intros [= <-]. exists tm0. split; [done|].
  unfold cancel. by destruct (timerState tm0).
Qed.

Ltac same_attempt Ha' :=
  destruct Ha' as [[? Ha']|Ha']; unfold succeeded in *; case_calls Ha';
  repeat (apply elem_of_cons in Ha' as [Ha'|Ha'];
          [first [discriminate Ha'|by injection Ha']|]);
  by apply elem_of_nil in Ha'.

Lemma coherent_onError s a x err :
  coherent s → attempts s !! a = Some x → coherent (onError this a err s).
Proof.
  intros Hcoh Hx. rewrite onError_closed.
  destruct (retriesDone s + 1 <=? retries this).
  - apply (coherent_assigned s _
      (retry_calls this a err ++ cleanup_calls_of a (attempts s !! a) ++
       [CallOnError a err])); unfold retry_state;
      cbn [calls attempts promise timers].
    + done.
    + by rewrite <- !app_assoc.
    + apply assigned_listener.
      { exists err. rewrite !elem_of_app. right. right. by left. }
      apply assigned_alter; [constructor|done|constructor].
    + intros a' Ha'.
      assert (a' = a) as -> by same_attempt Ha'.
      rewrite !list_lookup_alter_eq, Hx. simpl. eauto.
    + intros a'. quiet.
    + auto.
    + rewrite <- !app_assoc. apply success_first_app; [intros a'; quiet|].
      apply success_first_app; [intros a'; quiet|].
      simpl. split; [done|apply Hcoh].
    + intros t tm (tm0 & Ht & ->)%timers_cleanup. by eapply coh_timers.
  - apply (coherent_assigned s _
      (CallReject (aggregate this (retriesDone s + 1) err) ::
       cleanup_calls_of a (attempts s !! a) ++ [CallOnError a err]));
      unfold reject_state; cbn [calls attempts promise timers].
    + done.
    + simpl. by rewrite <- !app_assoc.
    + apply assigned_alter; [constructor|done|constructor].
    + intros a' Ha'.
      assert (a' = a) as -> by same_attempt Ha'.
      rewrite !list_lookup_alter_eq, Hx. simpl. eauto.
    + intros a'. quiet.
    + destruct (promise s); auto; discriminate.
    + cbn [app success_first]. split; [done|].
      rewrite <- !app_assoc. apply success_first_app; [intros a'; quiet|].
      simpl. split; [done|apply Hcoh].
    + intros t tm (tm0 & Ht & ->)%timers_cleanup. by eapply coh_timers.
Qed.

Lemma coherent_fired s t tm :
  coherent s → timers s !! t = Some tm → coherent (fired_state t tm s).
Proof.
  intros Hcoh Ht.
  apply (coherent_assigned s _ [CallAbort (timerAttempt tm)]);
    unfold fired_state; prims; try done.
  - constructor.
  - intros a'. intros [H|H]; exfalso; revert H; quiet.
  - intros a'. quiet.
  - auto.
  - simpl. split; [done|apply Hcoh].
  - intros t' tm'. rewrite list_lookup_insert. case_decide as Hc.
    + destruct Hc as [-> _]. intros [= <-]. simpl. by eapply coh_timers.
    + by eapply coh_timers.
Qed.

Lemma coherent_transition s s' :
  coherent s → transition this s s' → coherent s'.
Proof.
  intros Hcoh Htr.
  destruct Htr as [s a x err Hx|s t tm Ht Harmed|s a x Hx Hfin Hm|s a x Hx Hr
                  |s a x declared d Hx|s a x r d len Hx Hr|s a x Hx Hc|s
                  |s a x Hx Hc Hin].
  - by apply (coherent_onError s a x).
  - assert (Hlt := coh_timers s Hcoh t tm Ht).
    apply lookup_lt_is_Some in Hlt as [x Hx].
    apply (coherent_onError _ _ x); [by apply coherent_fired|done].
  - apply (coherent_assigned s _
      (CallOnClose a OnCloseResolve :: cleanup_calls a x));
      unfold success_state; cbn [calls attempts promise timers]; try done.
    + apply assigned_listener; [by left|].
      apply assigned_alter; [constructor|done|constructor].
    + intros a' Ha'.
      assert (a' = a) as -> by same_attempt Ha'.
      rewrite !list_lookup_alter_eq, Hx. simpl. eauto.
    + intros a'. quiet.
    + auto.
    + cbn [app success_first]. split.
      * intros a' [= <-]. intros [Hf|Hf]%failed_app.
        -- revert Hf. quiet.
        -- rewrite (coh_failed s Hcoh a x Hf Hx) in Hfin. done.
      * apply success_first_app; [intros a'; quiet|apply Hcoh].
    + intros t tm (tm0 & Ht & ->)%(timers_cleanup (Some x)). by eapply coh_timers.
  - apply (coherent_assigned s _
      [CallSetTimeout (length (timers s)) (default 0 (timeout this))]);
      unfold request_state; cbn [calls attempts promise timers]; try done.
    + apply assigned_alter; [constructor|done|constructor].
    + intros a'. intros [H|H]; exfalso; revert H; quiet.
    + intros a'. quiet.
    + auto.
    + simpl. split; [done|apply Hcoh].
    + intros t tm [Ht|[_ Ht]]%lookup_app_Some; [by eapply coh_timers|].
      apply list_lookup_singleton_Some in Ht as [_ <-]. simpl.
      by eapply lookup_lt_Some.
  - destruct d.
    + apply (coherent_assigned s _ [CallNewProgressBar (progressBars s) declared]);
        unfold response_state; cbn [calls attempts promise timers]; try done.
      * repeat (apply assigned_alter; [constructor|done|]). constructor.
      * intros a'. intros [H|H]; exfalso; revert H; quiet.
      * intros a'. quiet.
      * auto.
      * simpl. split; [done|apply Hcoh].
      * intros t tm Ht. by eapply coh_timers.
    + apply (coherent_assigned s _ []);
        unfold response_state; cbn [calls attempts promise timers]; try done.
      * repeat (apply assigned_alter; [constructor|done|]). constructor.
      * intros a'. intros [H|H]; exfalso; revert H; quiet.
      * intros a'. quiet.
      * auto.
      * apply Hcoh.
      * intros t tm Ht. by eapply coh_timers.
  - apply (coherent_assigned s _ (tick_calls x d len));
      unfold data_state; cbn [calls attempts promise timers]; try done.
    + apply assigned_alter; [|done|constructor].
      apply (assign_downloadedSize (λ y, downloadedSize y + Z.of_N len)).
    + intros a'. intros [H|H]; exfalso; revert H; quiet.
    + intros a'. quiet.
    + auto.
    + apply success_first_app; [intros a'; quiet|apply Hcoh].
    + intros t tm Ht. by eapply coh_timers.
  - apply (coherent_assigned s _ []); prims; try done.
    + apply assigned_alter; [constructor|done|constructor].
    + intros a'. intros [H|H]; exfalso; revert H; quiet.
    + intros a'. quiet.
    + auto.
    + apply Hcoh.
    + intros t tm Ht. by eapply coh_timers.
  - apply (coherent_step s _ [CallTryDownload (length (attempts s))]);
      unfold tryDownload; prims; try done.
    + rewrite length_app. lia.
    + intros i y [Hy|[Hge Hy]]%lookup_app_Some.
      * left. exists y. split; [done|apply later_refl].
      * right. split; [done|].
        destruct (i - length (attempts s))%nat; [|done].
        simpl in Hy. by injection Hy as <-.
    + intros a'. intros [H|H]; exfalso; revert H; quiet.
    + intros a'. quiet.
    + auto.
    + simpl. split; [done|apply Hcoh].
    + intros t tm Ht. rewrite length_app.
      assert (H := coh_timers s Hcoh t tm Ht). lia.
  - apply (coherent_assigned s _ [CallResolve a]); prims; try done.
    + constructor.
    + intros a'. intros [H|H]; exfalso; revert H; quiet.
    + intros a' [[= ->]|H]%elem_of_cons; [|by apply elem_of_nil in H].
      by apply (coh_listener s Hcoh a x OnCloseResolve).
    + intros _. right. exists a. by left.
    + simpl. split; [done|apply Hcoh].
    + intros t tm Ht. by eapply coh_timers.
Qed.

Lemma reachable_coherent s : reachable this s → coherent s.
Proof.
  apply reachable_invariant.
  - split; simpl; try done.
    + by intros a H%elem_of_nil.
    + by intros a [e H%elem_of_nil].
    + by intros a H%elem_of_nil.
  - apply coherent_transition.
Qed.

End Outcomes.

(** ** Sources whose attempts fail once *)

Section Origins.

Variable this : LargeDownload.









End Origins.

(** ** The retry budget *)




Example retry_budget_message :
  promise (run (download404 1) (failing_source (λ _, StreamError notFound) 2)
             (load (download404 1))) =
  Rejected (mkError ("Could not download localhost:8080/404 in 2 attempts:" +:+
                     LF +:+ "Response code 404 (Not Found)")).
Proof. reflexivity. Qed.

Example retry_budget_short_body :
  promise (run (download404 0)
             (failing_source (λ _, ShortBody "209715200" false 104857600) 1)
             (load (download404 0))) =
  Rejected (mkError ("Could not download localhost:8080/404 in 1 attempts:" +:+
                     LF +:+ "Downloaded file size (104857600) doesn't match " +:+
                     DQUOTE +:+ "content-length" +:+ DQUOTE +:+
                     " header (209715200) in the server response")).
Proof. vm_compute. reflexivity. Qed.



(** ** Size validation *)



(** ** The timeout *)

Section Timeout.

Variable this : LargeDownload.

Lemma onError_timers_nil a err s :
  timers s = [] → timers (onError this a err s) = [].
Proof.
  intros Ht. destruct (attempts s !! a) as [x|] eqn:Hx.
  - rewrite (onError_eq this _ _ _ _ Hx).
    destruct (retriesDone s + 1 <=? retries this); cbn [timers];
      unfold cleanup_timers; rewrite Ht; by destruct (downloadTimer x).
  - rewrite (onError_none this _ _ _ Hx).
    by destruct (retriesDone s + 1 <=? retries this).
Qed.

Lemma step_timers_nil s ev :
  (∀ a, ev ≠ EvRequest a) → timers s = [] → timers (step this ev s) = [].
Proof.
  intros Hev Ht. destruct ev as [a|t|a e|a e|a h tty|a r len|a|a]; cbn [step].
  - by destruct (Hev a).
  - unfold onTimeout. by rewrite Ht.
  - unfold with_attempt. destruct (attempts s !! a); [|done].
    by apply onError_timers_nil.
  - unfold with_attempt. destruct (attempts s !! a); [|done].
    by apply onError_timers_nil.
  - destruct (attempts s !! a) as [x|] eqn:Hx;
      [|by unfold onResponse, with_attempt; rewrite Hx].
    rewrite (onResponse_eq this _ _ _ _ _ Hx). cbn zeta.
    by destruct (tty && js_gt (parseInt10 h) (minSizeToShowProgress this)).
  - destruct (attempts s !! a) as [x|] eqn:Hx;
      [|by unfold onData, with_attempt; rewrite Hx].
    rewrite (onData_eq _ _ _ _ _ Hx). by destruct (responses x !! r).
  - unfold with_attempt. destruct (attempts s !! a) as [x|] eqn:Hx; [|done].
    destruct (finishListener x); [|done].
    rewrite (onFinish_eq this _ _ _ Hx). destruct (mismatch x).
    + by apply onError_timers_nil.
    + unfold success_state, cleanup_timers; cbn [timers]. rewrite Ht.
      by destruct (downloadTimer x).
  - destruct (attempts s !! a) as [x|] eqn:Hx;
      [|by unfold onClose, with_attempt; rewrite Hx].
    rewrite (onClose_eq this _ _ _ Hx). destruct (closed x); [done|].
    by rewrite emit_close_timers.
Qed.


End Timeout.



(** ** No success after a failure *)

Lemma success_first_older l newer older a :
  success_first l →
  l = newer ++ CallOnClose a OnCloseResolve :: older →
  ¬ failed a older.
Proof.
  revert l. induction newer as [|c newer IH]; intros l Hl ->.
  - destruct Hl as [Hl _]. by apply Hl.
  - destruct Hl as [_ Hl]. by eapply IH.
Qed.

Lemma success_first_newer l newer older a e :
  success_first l →
  l = newer ++ CallOnError a e :: older →
  ¬ succeeded a newer.
Proof.
  revert l. induction newer as [|c newer IH]; intros l Hl ->.
  - by intros H%elem_of_nil.
  - destruct Hl as [Hc Hl]. intros [<-|H]%elem_of_cons.
    + apply (Hc a eq_refl). exists e. apply elem_of_app. right. by left.
    + by eapply IH.
Qed.

Lemma trace_split s l1 c l2 :
  trace s = l1 ++ c :: l2 → calls s = reverse l2 ++ c :: reverse l1.
Proof.
  unfold trace. intros H. apply (f_equal reverse) in H.
  rewrite reverse_involutive in H. rewrite H.
  by rewrite reverse_app, reverse_cons, <- app_assoc.
Qed.

Lemma failed_reverse a l : failed a (reverse l) ↔ failed a l.
Proof. unfold failed. by setoid_rewrite elem_of_reverse. Qed.

(** C10. In every state a download can reach: once [onError] has run for an
    attempt, its ['finish'] listener is detached (cleanup removes it before
    it ends the writable), so a later ['finish'] does nothing and no success
    of that attempt follows in the order of calls; [resolve] is only called
    by a ['close'] listener that [onFinish] attached at a moment when no
    failure of that attempt had been recorded, and the promise is only
    resolved that way. *)
Theorem no_success_after_failure this s :
  reachable this s →
  (∀ a x, failed a (calls s) → attempts s !! a = Some x →
     finishListener x = false ∧ step this (EvFinish a) s = s) ∧
  (∀ l1 l2 a e, trace s = l1 ++ CallOnError a e :: l2 →
     CallOnClose a OnCloseResolve ∉ l2) ∧
  (∀ a, CallResolve a ∈ trace s →
     ∃ l1 l2, trace s = l1 ++ CallOnClose a OnCloseResolve :: l2 ∧
              ¬ failed a l1) ∧
  (promise s = Resolved → ∃ a, CallResolve a ∈ trace s) ∧
  (∀ a x, attempts s !! a = Some x →
     ∃ l, calls (cleanup a s) =
          l ++ [CallEnd a; CallRemoveListener a; CallUnpipe a; CallCleanup a] ++
          calls s).
Proof.
  intros Hs. assert (Hcoh := reachable_coherent this s Hs). split_and!.
  - intros a x Hf Hx. assert (Hfin := coh_failed s Hcoh a x Hf Hx).
    split; [done|]. cbn [step]. unfold with_attempt. by rewrite Hx, Hfin.
  - intros l1 l2 a e Ht%trace_split Hin.
    apply (success_first_newer _ _ _ _ _ (coh_order s Hcoh) Ht).
    unfold succeeded. by apply elem_of_reverse.
  - intros a Ha. unfold trace in Ha. rewrite elem_of_reverse in Ha.
    assert (Hsucc := coh_resolve s Hcoh a Ha).
    apply list_elem_of_split in Hsucc as (newer & older & Hsplit).
    exists (reverse older), (reverse newer). split.
    + unfold trace. by rewrite Hsplit, reverse_app, reverse_cons, <- app_assoc.
    + rewrite failed_reverse.
      by apply (success_first_older _ _ _ _ (coh_order s Hcoh) Hsplit).
  - intros Hp. destruct (coh_promise s Hcoh Hp) as [a Ha]. exists a.
    unfold trace. by apply elem_of_reverse.
  - intros a x Hx. rewrite (cleanup_eq _ _ _ Hx). cbn [calls].
    unfold cleanup_calls.
    exists (match bar x with Some b => [CallTerminate b] | None => [] end ++
            match downloadTimer x with
            | Some t => [CallClearTimeout t]
            | None => []
            end).
    by rewrite <- !app_assoc.
Qed.

Lemma no_success_after_failure_witness :
  let this := downloadFile in
  let s := run this [EvResponse 0 (Some "10") false; EvData 0 0 4;
                     EvWritableError 0 (mkError "ENOSPC")] (load this) in
  finishListener <$> attempts s !! 0%nat = Some false ∧
  step this (EvFinish 0) s = s.
Proof.
  intros this s.
  assert (Hs : reachable this s) by (apply reachable_run; constructor).
  destruct (no_success_after_failure this s Hs) as (H & _).
  destruct (H 0%nat
    {| downloadTimer := None; bar := None; declaredSize := JNum 10;
       downloadedSize := 4; piped := false; finishListener := false;
       requestListener := false; closeListeners := [OnCloseTryDownload];
       responses := [false]; ended := true; closed := false |}) as [_ Hstep].
  - exists (mkError "ENOSPC"). vm_compute. do 5 right. by left.
  - reflexivity.
  - split; [reflexivity|exact Hstep].
Defined.

(** ** Counting outcomes *)

Section Counting.

Variable this : LargeDownload.

Lemma count_app p l1 l2 : count p (l1 ++ l2) = (count p l1 + count p l2)%nat.
Proof. induction l1 as [|c l1 IH]; simpl; [done|]. rewrite IH. lia. Qed.

Lemma count_cleanup_calls_of p a o :
  (∀ b, p (CallTerminate b) = false) →
  (∀ t, p (CallClearTimeout t) = false) →
  p (CallEnd a) = false → p (CallRemoveListener a) = false →
  p (CallUnpipe a) = false → p (CallCleanup a) = false →
  count p (cleanup_calls_of a o) = 0%nat.
Proof.
  intros Ht Hc He Hr Hu Hcl. destruct o as [x|]; simpl.
  - unfold cleanup_calls. destruct (bar x), (downloadTimer x); simpl;
      by rewrite ?Ht, ?Hc, He, Hr, Hu, Hcl.
  - by rewrite He, Hr, Hu, Hcl.
Qed.

Lemma count_retry_calls p a err :
  p (CallOnClose a OnCloseTryDownload) = false →
  (∀ e, p (CallOnRetry e) = false) →
  count p (retry_calls this a err) = 0%nat.
Proof.
  intros Hc Hr. unfold retry_calls. destruct (onRetry this); simpl;
    by rewrite Hc, ?Hr.
Qed.

Lemma count_tick_calls p x d len :
  (∀ b n, p (CallTick b n) = false) → count p (tick_calls x d len) = 0%nat.
Proof.
  intros Ht. unfold tick_calls. destruct d; [|done].
  destruct (bar x); simpl; by rewrite ?Ht.
Qed.

Lemma pending_app l1 l2 : pending (l1 ++ l2) = (pending l1 + pending l2)%nat.
Proof. induction l1 as [|[] l1 IH]; simpl; lia. Qed.

Lemma counted_step s s' delta :
  counted s →
  calls s' = delta ++ calls s →
  retriesDone s' = retriesDone s + Z.of_nat (count is_failure delta) →
  (promise s' = Pending ↔
   promise s = Pending ∧ count is_settling delta = 0%nat) →
  (length (attempts s) ≤ length (attempts s'))%nat →
  (∀ i y, attempts s' !! i = Some y →
     (∃ x, attempts s !! i = Some x ∧
           (pending (closeListeners y) ≤
            pending (closeListeners x) + count (is_failure_of i) delta)%nat ∧
           (count (is_success_of i) delta + fin_weight x ≤ fin_weight y)%nat) ∨
     ((length (attempts s) ≤ i)%nat ∧ closeListeners y = [])) →
  (∀ a, (length (attempts s) ≤ a)%nat → count (is_success_of a) delta = 0%nat) →
  counted s'.
Proof.
  intros [Hr Hp Hpe Hsu Hlt] Hc Hret Hprom Hlen Hatt Hnew.
  unfold failures, successes in *. split; unfold failures, successes; rewrite ?Hc.
  - rewrite Hret, Hr, count_app. lia.
  - rewrite Hprom, Hp, count_app. lia.
  - intros a y Hy. rewrite count_app.
    destruct (Hatt a y Hy) as [(x & Hx & Hle & _)|[_ Hnil]].
    + specialize (Hpe a x Hx). lia.
    + rewrite Hnil. simpl. lia.
  - intros a y Hy. rewrite count_app. fold (fin_weight y).
    destruct (Hatt a y Hy) as [(x & Hx & _ & Hle)|[Hge _]].
    + specialize (Hsu a x Hx). fold (fin_weight x) in Hsu. lia.
    + rewrite (Hlt a Hge), (Hnew a Hge). lia.
  - intros a Ha. rewrite count_app, Hlt, Hnew; lia.
Qed.

End Counting.

Ltac counts :=
  unfold fin_weight;
  repeat (progress
            (cbn [count app];
             rewrite ?count_app, ?count_retry_calls, ?count_cleanup_calls_of,
               ?count_tick_calls by done));
  simpl;
  repeat case_bool_decide;
  repeat match goal with
         | |- context [finishListener ?x] => destruct (finishListener x)
         end;
  try done; try lia.

Ltac chain Hy :=
  left; repeat (apply lookup_alter_Some in Hy as (? & Hy & ->));
  eexists; split; [exact Hy|];
  split; repeat case_decide; subst;
  cbn [closeListeners finishListener add_closeListener detach set_closed
       set_bar set_declaredSize set_downloadedSize set_downloadTimer
       add_response];
  rewrite ?pending_app; counts.

Section CountingInvariant.

Variable this : LargeDownload.

Lemma counted_onError s a x err :
  counted s → attempts s !! a = Some x → counted (onError this a err s).
Proof.
  intros Hcnt Hx. rewrite onError_closed.
  destruct (retriesDone s + 1 <=? retries this).
  - apply (counted_step s _
      (retry_calls this a err ++ cleanup_calls_of a (attempts s !! a) ++
       [CallOnError a err])); unfold retry_state;
      cbn [calls attempts promise timers retriesDone].
    + done.
    + by rewrite <- !app_assoc.
    + counts.
    + counts. tauto.
    + by rewrite !length_alter.
    + intros i y Hy. chain Hy.
    + intros a' Ha'. counts.
  - apply (counted_step s _
      (CallReject (aggregate this (retriesDone s + 1) err) ::
       cleanup_calls_of a (attempts s !! a) ++ [CallOnError a err]));
      unfold reject_state; cbn [calls attempts promise timers retriesDone].
    + done.
    + simpl. by rewrite <- !app_assoc.
    + counts.
    + simpl. split; [|by intros [_ ?]]. by destruct (promise s).
    + by rewrite !length_alter.
    + intros i y Hy. chain Hy.
    + intros a' Ha'. counts.
Qed.

Lemma counted_transition s s' :
  counted s → coherent s → transition this s s' → counted s'.
Proof.
  intros Hcnt Hcoh Htr.
  destruct Htr as [s a x err Hx|s t tm Ht Harmed|s a x Hx Hfin Hm|s a x Hx Hr
                  |s a x declared d Hx|s a x r d len Hx Hr|s a x Hx Hc|s
                  |s a x Hx Hc Hin].
  - by apply (counted_onError s a x).
  - assert (Hlt := coh_timers s Hcoh t tm Ht).
    apply lookup_lt_is_Some in Hlt as [x Hx].
    apply (counted_onError _ _ x); [|done].
    apply (counted_step s _ [CallAbort (timerAttempt tm)]);
      unfold fired_state; prims; try done.
    + simpl. lia.
    + simpl. tauto.
    + intros i y Hy. left. exists y. split; [done|]. counts.
  - apply (counted_step s _
      (CallOnClose a OnCloseResolve :: cleanup_calls_of a (Some x)));
      unfold success_state; cbn [calls attempts promise timers retriesDone].
    + done.
    + done.
    + counts.
    + counts. tauto.
    + by rewrite !length_alter.
    + intros i y Hy. left.
      repeat (apply lookup_alter_Some in Hy as (? & Hy & ->)).
      eexists; split; [exact Hy|].
      destruct (decide (a = i)) as [->|Hne].
      * rewrite Hx in Hy. injection Hy as <-.
        cbn [closeListeners finishListener add_closeListener detach].
        rewrite pending_app. unfold fin_weight. rewrite Hfin.
        cbn [finishListener]. split; counts.
      * split; counts.
    + intros a' Ha'. apply lookup_lt_Some in Hx. counts.
  - apply (counted_step s _
      [CallSetTimeout (length (timers s)) (default 0 (timeout this))]);
      unfold request_state; cbn [calls attempts promise timers retriesDone];
      try done.
    + simpl. lia.
    + simpl. tauto.
    + by rewrite !length_alter.
    + intros i y Hy. chain Hy.
  - destruct d.
    + apply (counted_step s _ [CallNewProgressBar (progressBars s) declared]);
        unfold response_state; cbn [calls attempts promise timers retriesDone];
        try done.
      * simpl. lia.
      * simpl. tauto.
      * by rewrite !length_alter.
      * intros i y Hy. chain Hy.
    + apply (counted_step s _ []);
        unfold response_state; cbn [calls attempts promise timers retriesDone];
        try done.
      * simpl. lia.
      * simpl. tauto.
      * by rewrite !length_alter.
      * intros i y Hy. chain Hy.
  - apply (counted_step s _ (tick_calls x d len));
      unfold data_state; cbn [calls attempts promise timers retriesDone];
      try done.
    + counts.
    + counts. tauto.
    + by rewrite !length_alter.
    + intros i y Hy. chain Hy.
    + intros a' Ha'. counts.
  - apply (counted_step s _ []); prims; try done.
    + simpl. lia.
    + simpl. tauto.
    + by rewrite !length_alter.
    + intros i y Hy. chain Hy.
  - apply (counted_step s _ [CallTryDownload (length (attempts s))]);
      unfold tryDownload; prims; try done.
    + simpl. lia.
    + simpl. tauto.
    + rewrite length_app. lia.
    + intros i y [Hy|[Hge Hy]]%lookup_app_Some.
      * left. exists y. split; [done|]. counts.
      * right. split; [done|].
        destruct (i - length (attempts s))%nat; [|done].
        simpl in Hy. by injection Hy as <-.
  - apply (counted_step s _ [CallResolve a]); prims; try done.
    + simpl. lia.
    + simpl. split; [by destruct (promise s)|]. intros [_ ?]. lia.
    + intros i y Hy. left. exists y. split; [done|]. counts.
Qed.

Lemma reachable_counted s : reachable this s → counted s.
Proof.
  intros Hs.
  cut (counted s ∧ coherent s); [tauto|].
  apply (reachable_invariant this (λ s, counted s ∧ coherent s) s); [| |done].
  - split; split; simpl; try done.
    + by intros a H%elem_of_nil.
    + by intros a [e H%elem_of_nil].
    + by intros a H%elem_of_nil.
  - intros s1 s2 [Hcnt Hcoh] Htr. split.
    + by apply (counted_transition s1).
    + by apply (coherent_transition this s1).
Qed.

End CountingInvariant.

(** ** Outcomes and the settlement of the promise *)

Section Settlement.

Variable this : LargeDownload.

Lemma onError_promise_settled a err s :
  promise s ≠ Pending → promise (onError this a err s) = promise s.
Proof.
  intros Hp. rewrite onError_closed.
  destruct (retriesDone s + 1 <=? retries this); [done|].
  unfold reject_state; cbn [promise]. by destruct (promise s).
Qed.

Lemma transition_promise_settled s s' :
  transition this s s' → promise s ≠ Pending → promise s' = promise s.
Proof.
  intros Htr Hp.
  destruct Htr as [s a x err Hx|s t tm Ht Harmed|s a x Hx Hfin Hm|s a x Hx Hr
                  |s a x declared d Hx|s a x r d len Hx Hr|s a x Hx Hc|s
                  |s a x Hx Hc Hin]; try done.
  - by apply onError_promise_settled.
  - by rewrite onError_promise_settled.
  - by destruct d.
  - prims. by destruct (promise s).
Qed.

Lemma step_promise_settled s ev :
  promise s ≠ Pending → promise (step this ev s) = promise s.
Proof.
  intros Hp. assert (Htr := step_transitions this s ev).
  induction Htr as [|s1 s2 s3 H12 H23 IH]; [done|].
  rewrite IH.
  - by apply transition_promise_settled.
  - by rewrite (transition_promise_settled _ _ H12).
Qed.

Lemma run_promise_settled s evs :
  promise s ≠ Pending → promise (run this evs s) = promise s.
Proof.
  revert s; induction evs as [|ev evs IH]; intros s Hp; [done|].
  cbn [run]. unfold seq_handler. rewrite IH.
  - by apply step_promise_settled.
  - by rewrite step_promise_settled.
Qed.

Lemma failures_failed a s : (0 < failures a s)%nat → failed a (calls s).
Proof.
  unfold failures. induction (calls s) as [|c l IH]; simpl; [lia|].
  intros H. apply failed_cons.
  destruct (is_failure_of a c); [by left|right]. apply IH. lia.
Qed.

Lemma failures_onError a err s :
  failures a (onError this a err s) = S (failures a s).
Proof.
  unfold failures. rewrite onError_closed.
  destruct (retriesDone s + 1 <=? retries this);
    unfold retry_state, reject_state; cbn [calls]; counts.
Qed.

Lemma successes_onError a b err s :
  successes a (onError this b err s) = successes a s.
Proof.
  unfold successes. rewrite onError_closed.
  destruct (retriesDone s + 1 <=? retries this);
    unfold retry_state, reject_state; cbn [calls]; counts.
Qed.

End Settlement.

(** C6, the claim as it stands fails: with [retries = 1] and a timeout of
    500 ms, the timer fires before the response and the aborted request
    then makes the stream emit ['error']. [onError] runs twice for the one
    attempt made: two outcomes are consumed, [onRetry] is called once and a
    retry is scheduled, and the promise is rejected reporting 2 attempts. *)
Lemma timeout_then_error_two_outcomes :
  attempts_made (after_double_failure 1) = 1%nat ∧
  outcomes 0 (after_double_failure 1) = 2%nat ∧
  outcomes 0 (after_double_failure 1) ≠ 1%nat ∧
  retriesDone (after_double_failure 1) = 2 ∧
  onRetry_args (after_double_failure 1) =
    [mkError "Download timeout (500) reached"] ∧
  (closeListeners <$> attempts (after_double_failure 1) !! 0%nat) =
    Some [OnCloseTryDownload] ∧
  promise (after_double_failure 1) =
    Rejected (mkError ("Could not download localhost:8080/slow in 2 attempts:" +:+
                       LF +:+ "socket hang up")).
Proof. vm_compute. split_and!; (reflexivity || discriminate). Qed.

(** C6 as amended. Every run of [onError] is consumed once by the retry
    logic ([retriesDone] counts them), so an attempt for which several
    failure origins fire yields one failure per origin; an attempt whose
    ['finish'] listener is still attached has no outcome yet, and the first
    terminal event (finish or stream error) gives it exactly one; an attempt
    succeeds at most once. The promise is settled at most once: it is
    pending exactly while neither [resolve] nor [reject] has been called,
    and once settled no event changes it. *)
Theorem outcomes_and_settlement this s :
  reachable this s →
  retriesDone s = Z.of_nat (count is_failure (calls s)) ∧
  (∀ a x, attempts s !! a = Some x → finishListener x = true →
     outcomes a s = 0%nat) ∧
  (∀ a x ev, attempts s !! a = Some x → finishListener x = true →
     terminal a ev → outcomes a (step this ev s) = 1%nat) ∧
  (∀ a, (successes a s ≤ 1)%nat) ∧
  (∀ a e, failures a (onError this a e s) = S (failures a s)) ∧
  (promise s = Pending ↔ count is_settling (calls s) = 0%nat) ∧
  (∀ evs, promise s ≠ Pending → promise (run this evs s) = promise s).
Proof.
  intros Hs.
  assert (Hcnt := reachable_counted this s Hs).
  assert (Hcoh := reachable_coherent this s Hs).
  assert (Hzero : ∀ a x, attempts s !! a = Some x → finishListener x = true →
                         failures a s = 0%nat ∧ successes a s = 0%nat).
  { intros a x Hx Hfin. split.
    - destruct (failures a s) eqn:Hf; [done|].
      assert (Hfa : failed a (calls s)) by (apply failures_failed; lia).
      rewrite (coh_failed s Hcoh a x Hfa Hx) in Hfin. done.
    - assert (H := cnt_success s Hcnt a x Hx). rewrite Hfin in H. lia. }
  split_and!.
  - apply Hcnt.
  - intros a x Hx Hfin. unfold outcomes. destruct (Hzero a x Hx Hfin). lia.
  - intros a x ev Hx Hfin Hev. destruct (Hzero a x Hx Hfin) as [Hf0 Hs0].
    unfold outcomes.
    destruct Hev as [->|[[e ->]|[e ->]]]; cbn [step]; unfold with_attempt;
      rewrite Hx.
    + rewrite Hfin, (onFinish_eq this _ _ _ Hx). destruct (mismatch x).
      * rewrite failures_onError, successes_onError. lia.
      * unfold failures, successes, success_state in *. cbn [calls].
        change (cleanup_calls a x) with (cleanup_calls_of a (Some x)).
        counts.
    + rewrite failures_onError, successes_onError. lia.
    + rewrite failures_onError, successes_onError. lia.
  - intros a. destruct (attempts s !! a) as [x|] eqn:Hx.
    + assert (H := cnt_success s Hcnt a x Hx). destruct (finishListener x); lia.
    + rewrite (cnt_success_lt s Hcnt a); [lia|]. by apply lookup_ge_None.
  - intros a e. apply failures_onError.
  - apply Hcnt.
  - intros evs Hp. by apply run_promise_settled.
Qed.

Lemma outcomes_and_settlement_witness :
  outcomes 0 (step (downloadSlow 1) (EvReadableError 0 hangUp)
                (load (downloadSlow 1))) = 1%nat.
Proof.
  destruct (outcomes_and_settlement (downloadSlow 1) (load (downloadSlow 1))
              (reachable_load (downloadSlow 1)))
    as (_ & _ & H & _).
  apply (H 0%nat (newAttempt (downloadSlow 1)) (EvReadableError 0 hangUp)
           eq_refl eq_refl).
  right. left. by exists hangUp.
Defined.

(** ** One writable at a time *)

Section Writers.

Variable this : LargeDownload.

Lemma fmap_closed_alter (f : Attempt → Attempt) (a : nat) (l : list Attempt) :
  (∀ x, closed (f x) = closed x) →
  closed <$> alter f a l = closed <$> l.
Proof.
  intros Hf. apply list_eq. intros i. rewrite !list_lookup_fmap.
  destruct (decide (a = i)) as [->|Hne].
  - rewrite list_lookup_alter_eq. destruct (l !! i); simpl; by rewrite ?Hf.
  - by rewrite list_lookup_alter_ne.
Qed.

Lemma onError_closed_flags a err s :
  closed <$> attempts (onError this a err s) = closed <$> attempts s.
Proof.
  rewrite onError_attempts. apply fmap_closed_alter.
  intros x. by destruct (retriesDone s + 1 <=? retries this).
Qed.

(** Only a ['close'] event changes which writables are closed and how many
    attempts there are. *)
Lemma step_closed_flags s ev :
  (∀ a, ev ≠ EvClose a) →
  closed <$> attempts (step this ev s) = closed <$> attempts s.
Proof.
  intros Hev. destruct ev as [a|t|a e|a e|a h tty|a r len|a|a]; cbn [step].
  - destruct (attempts s !! a) as [x|] eqn:Hx;
      [|by unfold onRequest, with_attempt; rewrite Hx].
    rewrite (onRequest_eq this _ _ _ Hx).
    destruct (requestListener x); [|done]. cbn [attempts].
    by apply fmap_closed_alter.
  - unfold onTimeout. destruct (timers s !! t) as [tm|]; [|done].
    destruct (timerState tm); [|done..].
    unfold seq_handler. by rewrite onError_closed_flags.
  - unfold with_attempt. destruct (attempts s !! a); [|done].
    apply onError_closed_flags.
  - unfold with_attempt. destruct (attempts s !! a); [|done].
    apply onError_closed_flags.
  - destruct (attempts s !! a) as [x|] eqn:Hx;
      [|by unfold onResponse, with_attempt; rewrite Hx].
    rewrite (onResponse_eq this _ _ _ _ _ Hx). cbn zeta.
    destruct (tty && js_gt (parseInt10 h) (minSizeToShowProgress this));
      cbn [attempts]; by rewrite !fmap_closed_alter.
  - destruct (attempts s !! a) as [x|] eqn:Hx;
      [|by unfold onData, with_attempt; rewrite Hx].
    rewrite (onData_eq _ _ _ _ _ Hx).
    destruct (responses x !! r); [|done]. cbn [attempts].
    by apply fmap_closed_alter.
  - unfold with_attempt. destruct (attempts s !! a) as [x|] eqn:Hx; [|done].
    destruct (finishListener x); [|done].
    rewrite (onFinish_eq this _ _ _ Hx). destruct (mismatch x).
    + apply onError_closed_flags.
    + unfold success_state; cbn [attempts]. by rewrite !fmap_closed_alter.
  - by destruct (Hev a).
Qed.

Lemma open_writers_flags s :
  open_writers s = length (filter (λ b, b = false) (closed <$> attempts s)).
Proof.
  unfold open_writers. induction (attempts s) as [|x l IH]; [done|].
  rewrite fmap_cons, !filter_cons. destruct (closed x); simpl.
  - done.
  - by rewrite IH.
Qed.

Lemma open_writers_close (l : list Attempt) a x n :
  l !! a = Some x → closed x = false →
  S (length (filter (λ y, closed y = false)
               (alter set_closed a l ++ replicate n (newAttempt this)))) =
  (length (filter (λ y, closed y = false) l) + n)%nat.
Proof.
  intros Hx Hc. rewrite filter_app, length_app.
  assert (Hn : length (filter (λ y, closed y = false)
                         (replicate n (newAttempt this))) = n).
  { induction n as [|n IH]; [done|]. cbn [replicate].
    rewrite filter_cons_True by done. cbn [length]. by rewrite IH. }
  rewrite Hn. cut (S (length (filter (λ y, closed y = false) (alter set_closed a l)))
                   = length (filter (λ y, closed y = false) l)); [lia|].
  clear Hn. revert a Hx. induction l as [|y l IH]; intros a Hx; [done|].
  destruct a as [|a]; simpl in *.
  - injection Hx as ->. rewrite !filter_cons. simpl. by rewrite Hc.
  - rewrite !filter_cons. destruct (decide (closed y = false)); simpl;
      by rewrite <- (IH a Hx).
Qed.

Lemma onError_calls a err s :
  ∃ delta, calls (onError this a err s) = delta ++ calls s.
Proof.
  rewrite onError_closed.
  destruct (retriesDone s + 1 <=? retries this);
    unfold retry_state, reject_state; cbn [calls].
  - exists (retry_calls this a err ++ cleanup_calls_of a (attempts s !! a) ++
            [CallOnError a err]).
    by rewrite <- !app_assoc.
  - exists (CallReject (aggregate this (retriesDone s + 1) err) ::
            cleanup_calls_of a (attempts s !! a) ++ [CallOnError a err]).
    simpl. by rewrite <- !app_assoc.
Qed.

Lemma transition_calls s s' :
  transition this s s' → ∃ delta, calls s' = delta ++ calls s.
Proof.
  intros Htr.
  destruct Htr as [s a x err Hx|s t tm Ht Harmed|s a x Hx Hfin Hm|s a x Hx Hr
                  |s a x declared d Hx|s a x r d len Hx Hr|s a x Hx Hc|s
                  |s a x Hx Hc Hin].
  - apply onError_calls.
  - destruct (onError_calls (timerAttempt tm) (timeoutError this)
                (fired_state t tm s)) as [delta ->].
    exists (delta ++ [CallAbort (timerAttempt tm)]).
    unfold fired_state. prims. by rewrite <- app_assoc.
  - by exists (CallOnClose a OnCloseResolve :: cleanup_calls a x).
  - by exists [CallSetTimeout (length (timers s)) (default 0 (timeout this))].
  - destruct d; [by exists [CallNewProgressBar (progressBars s) declared]|by exists []].
  - by exists (tick_calls x d len).
  - by exists [].
  - by exists [CallTryDownload (length (attempts s))].
  - by exists [CallResolve a].
Qed.

Lemma step_calls s ev : ∃ delta, calls (step this ev s) = delta ++ calls s.
Proof.
  assert (Htr := step_transitions this s ev).
  induction Htr as [s1|s1 s2 s3 H12 H23 IH]; [by exists []|].
  destruct IH as [d2 ->]. destruct (transition_calls _ _ H12) as [d1 ->].
  exists (d2 ++ d1). by rewrite app_assoc.
Qed.

Lemma failures_step a s ev : (failures a s ≤ failures a (step this ev s))%nat.
Proof.
  unfold failures. destruct (step_calls s ev) as [delta ->].
  rewrite count_app. lia.
Qed.

Lemma reachable_serial s :
  reachable this s → (∀ a, (failures a s ≤ 1)%nat) → (open_writers s ≤ 1)%nat.
Proof.
  induction 1 as [|s ev Hs IH]; intros Hone; [done|].
  assert (Hprev : (open_writers s ≤ 1)%nat).
  { apply IH. intros a. specialize (Hone a).
    assert (H := failures_step a s ev). lia. }
  assert (Hcase : (∃ a, ev = EvClose a) ∨ (∀ a, ev ≠ EvClose a)).
  { destruct ev; try (by right); left; eauto. }
  destruct Hcase as [[a ->]|Hnc].
  - cbn [step]. destruct (attempts s !! a) as [x|] eqn:Hx;
      [|by unfold onClose, with_attempt; rewrite Hx].
    rewrite (onClose_eq this _ _ _ Hx). destruct (closed x) eqn:Hc; [done|].
    unfold open_writers in *. rewrite emit_close_attempts. prims.
    assert (H := open_writers_close (attempts s) a x
                   (pending (closeListeners x)) Hx Hc).
    assert (Hp := cnt_pending s (reachable_counted this s Hs) a x Hx).
    assert (Hf := failures_step a s (EvClose a)). specialize (Hone a). lia.
  - by rewrite open_writers_flags, step_closed_flags, <- open_writers_flags.
Qed.

End Writers.

Section Ordering.

Variable this : LargeDownload.

Lemma resolve_onError a b err s :
  CallResolve a ∈ calls (onError this b err s) → CallResolve a ∈ calls s.
Proof.
  rewrite onError_closed.
  destruct (retriesDone s + 1 <=? retries this);
    unfold retry_state, reject_state; cbn [calls].
  - intros [H|[H|H]%elem_of_app]%elem_of_app.
    + exfalso. revert H. quiet.
    + exfalso. revert H. quiet.
    + by apply elem_of_cons in H as [?|?].
  - intros [?|[H|H]%elem_of_app]%elem_of_cons; [done| |].
    + exfalso. revert H. quiet.
    + by apply elem_of_cons in H as [?|?].
Qed.

Lemma resolve_close_calls a a' n ls :
  CallResolve a' ∈ close_calls a n ls → a' = a ∧ OnCloseResolve ∈ ls.
Proof.
  revert n; induction ls as [|[] ls IH]; intros n; simpl.
  - by intros H%elem_of_nil.
  - intros [H|H]%elem_of_app.
    + destruct (IH _ H) as [-> ?]. split; [done|by right].
    + no_member H.
  - intros [H|H]%elem_of_app.
    + destruct (IH _ H) as [-> ?]. split; [done|by right].
    + apply list_elem_of_singleton in H. injection H as ->. split; [done|by left].
Qed.

(** [resolve] is called only by the ['close'] event of the writable of an
    attempt to which [onFinish] attached it. *)
Lemma step_resolve s ev a :
  CallResolve a ∈ calls (step this ev s) →
  CallResolve a ∈ calls s ∨
  (ev = EvClose a ∧
   ∃ x, attempts s !! a = Some x ∧ closed x = false ∧
        OnCloseResolve ∈ closeListeners x).
Proof.
  destruct ev as [b|t|b e|b e|b h tty|b r len|b|b]; cbn [step].
  - destruct (attempts s !! b) as [x|] eqn:Hx;
      [|unfold onRequest, with_attempt; rewrite Hx; auto].
    rewrite (onRequest_eq this _ _ _ Hx).
    destruct (requestListener x); [|auto]. cbn [calls].
    intros [?|?]%elem_of_cons; [done|auto].
  - unfold onTimeout. destruct (timers s !! t) as [tm|]; [|auto].
    destruct (timerState tm); [|auto..].
    unfold seq_handler. intros H%resolve_onError. revert H. prims.
    intros [?|?]%elem_of_cons; [done|auto].
  - unfold with_attempt. destruct (attempts s !! b); [|auto].
    intros H%resolve_onError. auto.
  - unfold with_attempt. destruct (attempts s !! b); [|auto].
    intros H%resolve_onError. auto.
  - destruct (attempts s !! b) as [x|] eqn:Hx;
      [|unfold onResponse, with_attempt; rewrite Hx; auto].
    rewrite (onResponse_eq this _ _ _ _ _ Hx). cbn zeta.
    destruct (tty && js_gt (parseInt10 h) (minSizeToShowProgress this));
      cbn [calls]; [|auto].
    intros [?|?]%elem_of_cons; [done|auto].
  - destruct (attempts s !! b) as [x|] eqn:Hx;
      [|unfold onData, with_attempt; rewrite Hx; auto].
    rewrite (onData_eq _ _ _ _ _ Hx).
    destruct (responses x !! r); [|auto]. cbn [calls].
    intros [H|?]%elem_of_app; [|auto]. exfalso. revert H. quiet.
  - unfold with_attempt. destruct (attempts s !! b) as [x|] eqn:Hx; [|auto].
    destruct (finishListener x); [|auto].
    rewrite (onFinish_eq this _ _ _ Hx). destruct (mismatch x).
    + intros H%resolve_onError. auto.
    + unfold success_state; cbn [calls].
      intros [?|[H|?]%elem_of_app]%elem_of_cons; [done| |auto].
      exfalso. revert H.
      change (cleanup_calls b x) with (cleanup_calls_of b (Some x)). quiet.
  - destruct (attempts s !! b) as [x|] eqn:Hx;
      [|unfold onClose, with_attempt; rewrite Hx; auto].
    rewrite (onClose_eq this _ _ _ Hx). destruct (closed x) eqn:Hc; [auto|].
    rewrite emit_close_calls. prims.
    intros [H|?]%elem_of_app; [|auto].
    apply resolve_close_calls in H as [-> Hin]. right. eauto.
Qed.

Lemma pending_pos ls : (0 < pending ls)%nat → OnCloseTryDownload ∈ ls.
Proof.
  induction ls as [|[] ls IH]; simpl; [lia|by left|].
  intros H. right. by apply IH.
Qed.

(** [tryDownload] runs again only in the ['close'] event of the writable of
    an attempt that has failed. *)
Lemma step_new_attempt s ev :
  coherent s →
  attempts_made (step this ev s) ≠ attempts_made s →
  ∃ a x, ev = EvClose a ∧ attempts s !! a = Some x ∧ closed x = false ∧
         failed a (calls s) ∧
         attempts_made (step this ev s) =
           (attempts_made s + pending (closeListeners x))%nat.
Proof.
  intros Hcoh Hne. unfold attempts_made in *.
  assert (Hcase : (∃ a, ev = EvClose a) ∨ (∀ a, ev ≠ EvClose a)).
  { destruct ev; try (by right); left; eauto. }
  destruct Hcase as [[a ->]|Hnc].
  - revert Hne. cbn [step]. destruct (attempts s !! a) as [x|] eqn:Hx;
      [|by unfold onClose, with_attempt; rewrite Hx].
    rewrite (onClose_eq this _ _ _ Hx). destruct (closed x) eqn:Hc; [done|].
    rewrite emit_close_attempts. prims.
    rewrite length_app, length_alter, length_replicate. intros Hne.
    exists a, x. split_and!; try done.
    apply (coh_listener s Hcoh a x OnCloseTryDownload Hx).
    apply pending_pos. lia.
  - destruct Hne.
    by rewrite <- (length_fmap closed (attempts (step this ev s))),
      (step_closed_flags this s ev Hnc), length_fmap.
Qed.

End Ordering.

(** C8, the claim as it stands fails: with [retries = 2], after the timeout
    and the stream error of attempt 0, [tryDownload] is attached twice to
    the ['close'] event of its writable; when that writable closes, attempts
    1 and 2 start together and both write to the destination. *)
Lemma two_writers_at_once :
  (closed <$> attempts (step (downloadSlow 2) (EvClose 0) (after_double_failure 2))) =
    [true; false; false] ∧
  open_writers (step (downloadSlow 2) (EvClose 0) (after_double_failure 2)) = 2%nat ∧
  ¬ (open_writers (step (downloadSlow 2) (EvClose 0) (after_double_failure 2)) ≤ 1)%nat.
Proof. vm_compute. split_and!; [reflexivity..|lia]. Qed.

(** C8 as amended. [resolve] is called only in the ['close'] event of the
    writable of the attempt that succeeded, and [tryDownload] runs again
    only in the ['close'] event of the writable of an attempt that failed;
    as long as no attempt has failed more than once, at most one writable is
    open at any time. *)
Theorem close_before_success_and_retry this s :
  reachable this s →
  (∀ ev a, CallResolve a ∈ calls (step this ev s) →
     CallResolve a ∈ calls s ∨
     (ev = EvClose a ∧
      ∃ x, attempts s !! a = Some x ∧ closed x = false ∧
           OnCloseResolve ∈ closeListeners x)) ∧
  (∀ ev, attempts_made (step this ev s) ≠ attempts_made s →
     ∃ a x, ev = EvClose a ∧ attempts s !! a = Some x ∧ closed x = false ∧
            failed a (calls s) ∧
            attempts_made (step this ev s) =
              (attempts_made s + pending (closeListeners x))%nat) ∧
  ((∀ a, (failures a s ≤ 1)%nat) → (open_writers s ≤ 1)%nat).
Proof.
  intros Hs. split_and!.
  - intros ev a. apply step_resolve.
  - intros ev. apply step_new_attempt. by apply (reachable_coherent this).
  - by apply (reachable_serial this).
Qed.

Lemma close_before_success_and_retry_witness :
  (open_writers (run (download404 1)
                   (failing_attempt (λ _, StreamError notFound) 0)
                   (load (download404 1))) ≤ 1)%nat.
Proof.
  assert (Hs : reachable (download404 1)
                 (run (download404 1)
                    (failing_attempt (λ _, StreamError notFound) 0)
                    (load (download404 1))))
    by (apply reachable_run; constructor).
  destruct (close_before_success_and_retry (download404 1) _ Hs) as (_ & _ & H).
  apply H. intros a. unfold failures. simpl. case_bool_decide; lia.
Defined.

(** ** Teardown *)

Section Teardown.

Variable this : LargeDownload.

Lemma alter_idemp {A} (f : A → A) (a : nat) (l : list A) :
  (∀ x, f (f x) = f x) → alter f a (alter f a l) = alter f a l.
Proof.
  intros Hf. rewrite alter_alter. apply list_eq. intros i.
  destruct (decide (a = i)) as [->|Hne].
  - rewrite !list_lookup_alter_eq. destruct (l !! i); simpl; by rewrite ?Hf.
  - by rewrite !list_lookup_alter_ne.
Qed.

Lemma cancel_idemp tm : cancel (cancel tm) = cancel tm.
Proof. destruct tm as [ta td st]. by destruct st. Qed.

Lemma cleanup_timers_idemp x l :
  cleanup_timers x (cleanup_timers x l) = cleanup_timers x l.
Proof.
  unfold cleanup_timers. destruct (downloadTimer x); [|done].
  apply alter_idemp, cancel_idemp.
Qed.

Lemma count_terminate_cleanup b a x :
  count (is_terminate b) (cleanup_calls a x) =
  if decide (bar x = Some b) then 1%nat else 0%nat.
Proof.
  unfold cleanup_calls.
  destruct (decide (bar x = Some b)) as [Hb|Hb].
  - rewrite Hb. destruct (downloadTimer x); simpl;
      by rewrite bool_decide_eq_true_2.
  - destruct (bar x) as [b'|], (downloadTimer x); simpl; try done;
      rewrite bool_decide_eq_false_2; try done; congruence.
Qed.

Lemma cleanup_iter s a x n :
  attempts s !! a = Some x →
  cleanups (S n) a s =
    {| retriesDone := retriesDone s; promise := promise s;
       attempts := alter detach a (attempts s);
       timers := cleanup_timers x (timers s);
       progressBars := progressBars s;
       calls := calls (cleanups (S n) a s) |} ∧
  ∀ b, count (is_terminate b) (calls (cleanups (S n) a s)) =
       (count (is_terminate b) (calls s) +
        if decide (bar x = Some b) then S n else 0)%nat.
Proof.
  intros Hx. induction n as [|n [IH1 IH2]].
  - cbn [cleanups].
    rewrite (cleanup_eq _ _ _ Hx). cbn [calls]. split; [done|].
    intros b. rewrite count_app, count_terminate_cleanup. case_decide; lia.
  - remember (cleanups (S n) a s) as sn eqn:Hsn.
    assert (Hstep : cleanups (S (S n)) a s = cleanup a sn) by (by rewrite Hsn).
    rewrite Hstep. clear Hstep Hsn.
    assert (Hx' : attempts sn !! a = Some (detach x)).
    { rewrite IH1. cbn [attempts]. by rewrite list_lookup_alter_eq, Hx. }
    rewrite (cleanup_eq _ _ _ Hx'). cbn [calls]. split.
    + f_equal.
      * by rewrite IH1.
      * by rewrite IH1.
      * rewrite IH1. cbn [attempts]. by apply alter_idemp.
      * rewrite IH1. cbn [timers]. apply (cleanup_timers_idemp x).
      * by rewrite IH1.
    + intros b. rewrite count_app, count_terminate_cleanup, IH2. simpl.
      repeat case_decide; lia.
Qed.

Lemma bars_created_transition s s' :
  bars_created s → transition this s s' → bars_created s'.
Proof.
  intros Hb Htr.
  assert (Hkeep : ∀ s1 s2 : State,
            (∃ delta, calls s2 = delta ++ calls s1) →
            (∀ i y, attempts s2 !! i = Some y →
               ∃ x, attempts s1 !! i = Some x ∧ bar y = bar x) →
            bars_created s1 → bars_created s2).
  { intros s1 s2 [delta Hc] Hatt H1 a y b Hy Hbar.
    destruct (Hatt a y Hy) as (x & Hx & Heq). rewrite Heq in Hbar.
    destruct (H1 a x b Hx Hbar) as [total Hin]. exists total.
    rewrite Hc. apply elem_of_app. by right. }
  assert (Herr : ∀ s1 a err, bars_created s1 →
                   bars_created (onError this a err s1)).
  { intros s1 a err H1. apply (Hkeep s1); [apply onError_calls| |done].
    intros i y. rewrite onError_attempts.
    intros (x & Hx & ->)%lookup_alter_Some. exists x. split; [done|].
    case_decide; [|done]. by destruct (retriesDone s1 + 1 <=? retries this). }
  destruct Htr as [s a x err Hx|s t tm Ht Harmed|s a x Hx Hfin Hm|s a x Hx Hr
                  |s a x declared d Hx|s a x r d len Hx Hr|s a x Hx Hc|s
                  |s a x Hx Hc Hin].
  - by apply Herr.
  - apply Herr. apply (Hkeep s); [by exists [CallAbort (timerAttempt tm)]| |done].
    intros i y Hy. by exists y.
  - apply (Hkeep s);
      [by exists (CallOnClose a OnCloseResolve :: cleanup_calls a x)| |done].
    unfold success_state; cbn [attempts]. intros i y Hy.
    repeat (apply lookup_alter_Some in Hy as (? & Hy & ->)).
    eexists; split; [exact Hy|]. by repeat case_decide.
  - apply (Hkeep s);
      [by exists [CallSetTimeout (length (timers s)) (default 0 (timeout this))]
      | |done].
    unfold request_state; cbn [attempts]. intros i y Hy.
    repeat (apply lookup_alter_Some in Hy as (? & Hy & ->)).
    eexists; split; [exact Hy|]. by repeat case_decide.
  - destruct d.
    + intros i y b. unfold response_state; cbn [attempts calls]. intros Hy.
      repeat (apply lookup_alter_Some in Hy as (? & Hy & ->)).
      destruct (decide (a = i)) as [->|Hne]; simpl.
      * intros [= <-]. exists declared. by left.
      * intros Hbar. destruct (Hb i _ b Hy Hbar) as [total Hin].
        exists total. by right.
    + apply (Hkeep s); [by exists []| |done].
      unfold response_state; cbn [attempts]. intros i y Hy.
      repeat (apply lookup_alter_Some in Hy as (? & Hy & ->)).
      eexists; split; [exact Hy|]. by repeat case_decide.
  - apply (Hkeep s); [by exists (tick_calls x d len)| |done].
    unfold data_state; cbn [attempts]. intros i y Hy.
    repeat (apply lookup_alter_Some in Hy as (? & Hy & ->)).
    eexists; split; [exact Hy|]. by repeat case_decide.
  - apply (Hkeep s); [by exists []| |done].
    prims. intros i y Hy.
    repeat (apply lookup_alter_Some in Hy as (? & Hy & ->)).
    eexists; split; [exact Hy|]. by repeat case_decide.
  - intros i y b. unfold tryDownload. prims.
    intros [Hy|[Hge Hy]]%lookup_app_Some Hbar.
    + destruct (Hb i y b Hy Hbar) as [total Hin]. exists total. by right.
    + destruct (i - length (attempts s))%nat; [|done].
      simpl in Hy. injection Hy as <-. done.
  - apply (Hkeep s); [by exists [CallResolve a]| |done].
    prims. intros i y Hy. by exists y.
Qed.

Lemma reachable_bars_created s : reachable this s → bars_created s.
Proof.
  intros Hs. apply (reachable_invariant this bars_created s); [| |done].
  - by intros a x b H.
  - intros s1 s2. apply bars_created_transition.
Qed.

End Teardown.

(** C5, the claim as it stands fails: a download with a progress bar whose
    writable fails and whose stream then fails too runs [cleanup] twice for
    the one attempt. [terminate] is called twice on its progress bar, and the
    chunk that arrives between the two failures is ticked after the first
    [terminate]. *)
Lemma terminate_called_twice :
  attempts_made after_two_teardowns = 1%nat ∧
  count (is_cleanup 0) (calls after_two_teardowns) = 2%nat ∧
  progress_calls after_two_teardowns =
    [CallNewProgressBar 0 (JNum 104857600); CallTick 0 65536; CallTerminate 0;
     CallTick 0 65536; CallTerminate 0] ∧
  ¬ (count (is_terminate 0) (calls after_two_teardowns) ≤ 1)%nat.
Proof. vm_compute. split_and!; [reflexivity..|lia]. Qed.

(** C5 as amended. [cleanup] can run any number of times for an attempt: no
    run settles the promise or touches [retriesDone]; after the first run
    the closures and the timers no longer change; but every run calls
    [terminate] on the progress bar of the attempt when there is one, so
    [n] runs call it [n] times, and no run calls it when there is none. A
    progress bar that a closure holds was constructed before. The ['data']
    listener of a response is not detached: a chunk that arrives after a
    teardown is still counted and, with a progress bar, ticked. *)
Theorem teardown_repeated this s a x n :
  reachable this s →
  attempts s !! a = Some x →
  let s' := cleanups (S n) a s in
  promise s' = promise s ∧
  retriesDone s' = retriesDone s ∧
  attempts s' = attempts (cleanup a s) ∧
  timers s' = timers (cleanup a s) ∧
  (∀ b, count (is_terminate b) (calls s') =
        (count (is_terminate b) (calls s) +
         if decide (bar x = Some b) then S n else 0)%nat) ∧
  (∀ b, bar x = Some b → ∃ total, CallNewProgressBar b total ∈ calls s) ∧
  (∀ b r len, bar x = Some b → responses x !! r = Some true →
     calls (step this (EvData a r len) s') = CallTick b len :: calls s').
Proof.
  intros Hs Hx s'. destruct (cleanup_iter s a x n Hx) as [Heq Hcount].
  fold s' in Heq, Hcount. split_and!.
  - by rewrite Heq.
  - by rewrite Heq.
  - rewrite Heq, (cleanup_eq _ _ _ Hx). done.
  - rewrite Heq, (cleanup_eq _ _ _ Hx). done.
  - exact Hcount.
  - intros b Hb. by apply (reachable_bars_created this s Hs a x b).
  - intros b r len Hb Hr. cbn [step].
    assert (Hx' : attempts s' !! a = Some (detach x)).
    { rewrite Heq. cbn [attempts]. by rewrite list_lookup_alter_eq, Hx. }
    rewrite (onData_eq _ _ _ _ _ Hx'). cbn [responses detach]. rewrite Hr.
    cbn [calls]. unfold tick_calls. cbn [bar detach]. by rewrite Hb.
Qed.

Lemma teardown_repeated_witness :
  count (is_terminate 0)
    (calls (cleanups 2 0
              (run downloadFile [EvResponse 0 (Some "104857600") true]
                 (load downloadFile)))) = 2%nat.
Proof.
  assert (Hs : reachable downloadFile
                 (run downloadFile [EvResponse 0 (Some "104857600") true]
                    (load downloadFile)))
    by (apply reachable_run; constructor).
  destruct (teardown_repeated downloadFile _ 0
              {| downloadTimer := None; bar := Some 0%nat;
                 declaredSize := JNum 104857600; downloadedSize := 0;
                 piped := true; finishListener := true;
                 requestListener := false; closeListeners := [];
                 responses := [true]; ended := false; closed := false |}
              1 Hs eq_refl) as (_ & _ & _ & _ & H & _).
  exact (H 0%nat).
Defined.

(** ** The progress bar *)

Section Progress.

Variable this : LargeDownload.

Lemma progress_cleanup_calls a x :
  omap progress_only (cleanup_calls a x) =
  bar_calls (bar x) (λ b, [CallTerminate b]).
Proof.
  unfold cleanup_calls. by destruct (bar x), (downloadTimer x).
Qed.

Lemma progress_onError s a x err :
  attempts s !! a = Some x →
  omap progress_only (calls (onError this a err s)) =
  bar_calls (bar x) (λ b, [CallTerminate b]) ++ omap progress_only (calls s).
Proof.
  intros Hx. rewrite (onError_eq this _ _ _ _ Hx).
  destruct (retriesDone s + 1 <=? retries this); cbn [calls].
  - rewrite !omap_app, progress_cleanup_calls. unfold retry_calls.
    by destruct (onRetry this).
  - cbn [omap list_omap progress_only is_progress].
    by rewrite !omap_app, progress_cleanup_calls.
Qed.

Lemma progress_data chunks : ∀ s a x (d : bool),
  attempts s !! a = Some x → responses x !! 0%nat = Some d →
  let s' := run this (EvData a 0 <$> chunks) s in
  ∃ x', attempts s' !! a = Some x' ∧ bar x' = bar x ∧
        finishListener x' = finishListener x ∧
        timers s' = timers s ∧
        omap progress_only (calls s') =
          reverse (if d then bar_calls (bar x) (λ b, CallTick b <$> chunks)
                   else []) ++
          omap progress_only (calls s).
Proof.
  induction chunks as [|len chunks IH]; intros s a x d Hx Hr.
  - exists x. split_and!; try done. simpl. by destruct d, (bar x).
  - cbn [fmap list_fmap run]. unfold seq_handler. cbn [step].
    rewrite (onData_eq _ _ _ _ _ Hx), Hr.
    set (s1 := {| retriesDone := retriesDone s |}).
    assert (Hx1 : attempts s1 !! a =
                  Some (set_downloadedSize (downloadedSize x + Z.of_N len) x)).
    { unfold s1; cbn [attempts]. by rewrite list_lookup_alter_eq, Hx. }
    destruct (IH s1 a _ d Hx1 Hr) as (x' & Hx' & Hb & Hf & Ht & Hc).
    exists x'. split_and!; try done.
    rewrite Hc. unfold s1; cbn [calls bar set_downloadedSize].
    rewrite omap_app. unfold tick_calls.
    destruct d; [|done]. destruct (bar x); [|done]. simpl.
    by rewrite reverse_cons, <- app_assoc.
Qed.

Lemma onError_bar s a x err :
  attempts s !! a = Some x →
  ∃ x', attempts (onError this a err s) !! a = Some x' ∧ bar x' = bar x.
Proof.
  intros Hx. rewrite onError_attempts, list_lookup_alter_eq, Hx. cbn.
  eexists. split; [done|]. by destruct (retriesDone s + 1 <=? retries this).
Qed.

Lemma progress_end s a x ev :
  attempts s !! a = Some x → finishListener x = true → ends s a ev →
  (∃ x', attempts (step this ev s) !! a = Some x' ∧ bar x' = bar x) ∧
  omap progress_only (calls (step this ev s)) =
  bar_calls (bar x) (λ b, [CallTerminate b]) ++ omap progress_only (calls s).
Proof.
  intros Hx Hfin [[->|[[e ->]|[e ->]]]|(t & tm & -> & Ht & Harmed & <-)];
    cbn [step]; unfold with_attempt; rewrite ?Hx.
  - rewrite Hfin, (onFinish_eq this _ _ _ Hx). destruct (mismatch x).
    + split; [by apply onError_bar|by apply progress_onError].
    + unfold success_state; cbn [calls attempts]. split.
      * rewrite !list_lookup_alter_eq, Hx. cbn. by eexists.
      * cbn [omap list_omap progress_only is_progress].
        by rewrite omap_app, progress_cleanup_calls.
  - split; [by apply onError_bar|by apply progress_onError].
  - split; [by apply onError_bar|by apply progress_onError].
  - rewrite (onTimeout_eq this _ _ _ Ht), Harmed. split.
    + apply onError_bar. by prims.
    + rewrite (progress_onError _ _ x); [done|]. by prims.
Qed.

End Progress.

(** C7, the claim as it stands fails: a transfer with a progress bar whose
    timer fires and whose writable then fails is torn down twice, and the
    bar that was constructed once is terminated twice. *)
Lemma progress_bar_terminated_twice :
  progress_calls after_two_failures =
    [CallNewProgressBar 0 (JNum 104857600); CallTick 0 65536;
     CallTerminate 0; CallTerminate 0] ∧
  attempts_made after_two_failures = 1%nat ∧
  count (is_terminate 0) (calls after_two_failures) ≠ 1%nat.
Proof. vm_compute. split_and!; [reflexivity..|discriminate]. Qed.

(** C7 as amended. For a transfer of an attempt that has seen no response
    yet (response, chunks, then one event that ends it: finish, an error of
    either stream, or the expiry of its timer), with a threshold that is not
    negative: a progress bar is constructed if and only if the output is a
    terminal and the declared size is known and exceeds the threshold. When
    constructed, it is constructed once with the declared size as total,
    ticked once per chunk with the length of the chunk, and terminated once
    by the teardown of the ending event, whether finish or failure.
    Otherwise no call is made on the progress module. A failure of the
    attempt after its end tears it down again, which terminates the bar
    once more. *)
Theorem progress_bar_lifecycle this s a x h tty chunks term :
  attempts s !! a = Some x →
  fresh x →
  nonnegative (minSizeToShowProgress this) →
  ends s a term →
  let declared := parseInt10 h in
  let created := tty && js_gt declared (minSizeToShowProgress this) in
  let s' := run this (transfer a h tty chunks term) s in
  (created = true ↔
   tty = true ∧ truthy declared = true ∧
   js_gt declared (minSizeToShowProgress this) = true) ∧
  progress_calls s' =
    progress_calls s ++
    (if created then
       CallNewProgressBar (progressBars s) declared ::
       (CallTick (progressBars s) <$> chunks) ++
       [CallTerminate (progressBars s)]
     else []) ∧
  (∀ err, progress_calls (onError this a err s') =
          progress_calls s' ++
          if created then [CallTerminate (progressBars s)] else []).
Proof.
  intros Hx (Hbar & Hresp & Hfin) Hmin Hends declared created s'.
  split; [|unfold s', transfer].
  - unfold created. rewrite andb_true_iff. split; [|tauto].
    intros [Htty Hgt]. split_and!; try done.
    destruct declared as [| |d]; try done.
    destruct (minSizeToShowProgress this) as [| |m]; try done.
    simpl in *. apply Z.ltb_lt in Hgt. apply negb_true_iff, Z.eqb_neq. lia.
  - cbn [run]. unfold seq_handler.
    rewrite run_app. cbn [run]. unfold seq_handler, skip.
    change (step this (EvResponse a h tty) s) with (onResponse this a h tty s).
    rewrite (onResponse_eq this _ _ _ _ _ Hx). cbn zeta.
    fold declared. fold created.
    set (s1 := if created then _ else _).
    set (b := if created then Some (progressBars s) else None).
    assert (Hx1 : ∃ x1, attempts s1 !! a = Some x1 ∧ bar x1 = b ∧
                        responses x1 = [created] ∧ finishListener x1 = true).
    { unfold s1, b. destruct created; cbn [attempts];
        rewrite !list_lookup_alter_eq, Hx; cbn;
        eexists; (split; [reflexivity|]); cbn; by rewrite ?Hresp, ?Hbar. }
    destruct Hx1 as (x1 & Hx1 & Hb1 & Hr1 & Hf1).
    assert (Ht1 : timers s1 = timers s) by (unfold s1; by destruct created).
    assert (Hc1 : omap progress_only (calls s1) =
                  (if created then [CallNewProgressBar (progressBars s) declared]
                   else []) ++ omap progress_only (calls s)).
    { unfold s1. by destruct created. }
    destruct (progress_data this chunks s1 a x1 created Hx1) as
      (x2 & Hx2 & Hb2 & Hf2 & Ht2 & Hc2); [by rewrite Hr1|].
    assert (Hends2 : ends (run this (EvData a 0 <$> chunks) s1) a term).
    { destruct Hends as [?|(t & tm & ? & ? & ?)]; [by left|right].
      exists t, tm. by rewrite Ht2, Ht1. }
    destruct (progress_end this _ a x2 term Hx2) as [(x3 & Hx3 & Hb3) Hc3];
      [congruence|done|].
    unfold progress_calls, trace. rewrite !omap_reverse. split.
    + rewrite Hc3, Hc2, Hc1, Hb2, Hb1. unfold b.
      destruct created; simpl.
      * rewrite reverse_cons, reverse_app, reverse_cons, reverse_involutive.
        by rewrite <- !app_assoc.
      * by rewrite app_nil_r.
    + intros err. rewrite omap_reverse.
      rewrite (progress_onError this _ a x3 err Hx3).
      rewrite reverse_app, Hb3, Hb2, Hb1. unfold b.
      by destruct created.
Qed.

Lemma progress_bar_lifecycle_witness :
  progress_calls
    (run downloadFile
       (transfer 0 (Some "104857600") true [65536; 65536]%N (EvFinish 0))
       (load downloadFile)) =
  [CallNewProgressBar 0 (JNum 104857600); CallTick 0 65536; CallTick 0 65536;
   CallTerminate 0].
Proof.
  refine (proj1 (proj2 (progress_bar_lifecycle downloadFile (load downloadFile) 0
                   (newAttempt downloadFile) (Some "104857600") true
                   [65536; 65536]%N (EvFinish 0) eq_refl _ _ _))).
  - by split_and!.
  - simpl. lia.
  - left. by left.
Defined.


(** ** The constructor's checks and defaults *)

Lemma nonempty_None v : nonempty v = None ↔ falsy v.
Proof.
  unfold falsy. destruct v as [[|c l]|]; cbn; split; try done.
  - by right.
  - by intros [H|H].
  - by left.
Qed.

Lemma nonempty_Some v l : nonempty v = Some l ↔ v = Some l ∧ ¬ falsy v.
Proof.
  unfold falsy. destruct v as [[|c r]|]; cbn; split; try done.
  - intros [_ H]. destruct H. by right.
  - intros [= <-]. split; [done|]. by intros [H|H].
  - by intros [H _].
  - intros [_ H]. destruct H. by left.
Qed.

(** X1. Without a link or without a destination the constructor throws, and
    the link is checked first; otherwise it returns an instance that
    carries the link and the destination given. *)
Theorem constructor_validation opts :
  (falsy (opt_link opts) ↔
   constructor opts = inl (mkError "Download link is not provided")) ∧
  (¬ falsy (opt_link opts) ∧ falsy (opt_destination opts) ↔
   constructor opts = inl (mkError "Destination is not provided")) ∧
  (¬ falsy (opt_link opts) ∧ ¬ falsy (opt_destination opts) ↔
   ∃ d, constructor opts = inr d) ∧
  (∀ d, constructor opts = inr d →
     opt_link opts = Some (link d) ∧ opt_destination opts = Some (destination d)).
Proof.
  unfold constructor.
  destruct (nonempty (opt_link opts)) as [l|] eqn:Hl.
  - apply nonempty_Some in Hl as [Hl Hnl].
    destruct (nonempty (opt_destination opts)) as [d|] eqn:Hd.
    + apply nonempty_Some in Hd as [Hd Hnd]. split_and!.
      * split; [done|discriminate].
      * split; [by intros [_ ?]|discriminate].
      * split; [by eexists|done].
      * by intros d0 [= <-].
    + apply nonempty_None in Hd. split_and!.
      * split; [done|discriminate].
      * done.
      * split; [by intros [_ ?]|by intros [d0 ?]].
      * discriminate.
  - apply nonempty_None in Hl. split_and!.
    + done.
    + split; [by intros [? _]|discriminate].
    + split; [by intros [? _]|by intros [d0 ?]].
    + discriminate.
Qed.

(** X2. An instance is accepted as options and gives the same instance again:
    the defaults the constructor fills in are kept by a second pass. *)
Theorem constructor_of_instance opts d :
  constructor opts = inr d → constructor (as_options d) = inr d.
Proof.
  unfold constructor.
  destruct (nonempty (opt_link opts)) as [l|] eqn:El; [|discriminate].
  destruct (nonempty (opt_destination opts)) as [dst|] eqn:Ed; [|discriminate].
  intros [= <-]. cbn.
  apply nonempty_Some in El as [El Hl], Ed as [Ed Hd].
  rewrite El in Hl. rewrite Ed in Hd.
  destruct l as [|c l]; [by destruct Hl; right|].
  destruct dst as [|c' dst]; [by destruct Hd; right|].
  cbn. f_equal. f_equal.
  - unfold Object_assign. destruct (opt_httpOptions opts) as [src|].
    + by rewrite <- (assoc_L (∪)), (idemp_L (∪)).
    + by rewrite (idemp_L (∪)).
  - destruct (opt_minSizeToShowProgress opts) as [n|]; [|done].
    destruct (truthy n) eqn:Hn; [by rewrite Hn|done].
Qed.

Lemma constructor_of_instance_witness :
  constructor (as_options overridden) = inr overridden.
Proof.
  apply (constructor_of_instance overridden_options overridden). reflexivity.
Defined.

(** ** The retry budget in every reachable state *)

Section Budget.

Variable this : LargeDownload.

Lemma waiting_app l1 l2 : waiting (l1 ++ l2) = (waiting l1 + waiting l2)%nat.
Proof. apply sum_list_with_app. Qed.

Lemma waiting_replicate n : waiting (replicate n (newAttempt this)) = 0%nat.
Proof. induction n as [|n IH]; [done|]. exact IH. Qed.

Lemma waiting_alter_le (f : Attempt → Attempt) (a : nat) (l : list Attempt) k :
  (∀ x, waiting_of (f x) ≤ waiting_of x + k)%nat →
  (waiting (alter f a l) ≤ waiting l + k)%nat.
Proof.
  intros Hf. unfold waiting. revert a.
  induction l as [|y l IH]; intros [|a]; simpl; try lia.
  - specialize (Hf y). lia.
  - specialize (IH a). unfold alter in IH. lia.
Qed.

Lemma waiting_alter_same (f : Attempt → Attempt) (a : nat) (l : list Attempt) :
  (∀ x, waiting_of (f x) = waiting_of x) → waiting (alter f a l) = waiting l.
Proof.
  intros Hf. unfold waiting. revert a.
  induction l as [|y l IH]; intros [|a]; simpl; try done.
  - by rewrite Hf.
  - specialize (IH a). unfold alter in IH. by rewrite IH.
Qed.

Lemma waiting_close (l : list Attempt) a x :
  l !! a = Some x → closed x = false →
  (waiting (alter set_closed a l) + pending (closeListeners x))%nat = waiting l.
Proof.
  unfold waiting. revert a.
  induction l as [|y l IH]; intros [|a] Hx Hc; simpl in *; try done.
  - injection Hx as ->.
    assert (waiting_of (set_closed x) = 0%nat) by done.
    assert (waiting_of x = pending (closeListeners x))
      by (unfold waiting_of; by rewrite Hc).
    lia.
  - specialize (IH a Hx Hc). unfold alter in IH. lia.
Qed.

Lemma count_close_calls p a n ls :
  (∀ i, p (CallTryDownload i) = false) → p (CallResolve a) = false →
  count p (close_calls a n ls) = 0%nat.
Proof.
  intros Ht Hr. revert n. induction ls as [|[] ls IH]; intros n; cbn; [done|..];
    rewrite count_app, IH; cbn; by rewrite ?Ht, ?Hr.
Qed.

(** A step that does not touch the retry logic. *)
Lemma budgeted_quiet s s' delta :
  budgeted this s →
  calls s' = delta ++ calls s →
  count is_schedule delta = 0%nat →
  count is_onRetry delta = 0%nat →
  count is_reject delta = 0%nat →
  retriesDone s' = retriesDone s →
  (attempts_made s ≤ attempts_made s')%nat →
  (attempts_made s' + waiting (attempts s') ≤
   attempts_made s + waiting (attempts s))%nat →
  budgeted this s'.
Proof.
  intros [Hr Hs Ha Ho Hj] Hc Hd1 Hd2 Hd3 Hrd Hge Hle.
  split; rewrite ?Hc, ?count_app, ?Hd1, ?Hd2, ?Hd3, ?Hrd; cbn; try done.
  lia.
Qed.

Lemma onError_budget_counts s a err :
  let retry := retriesDone s + 1 <=? retries this in
  count is_schedule (calls (onError this a err s)) =
    ((if retry then 1 else 0) + count is_schedule (calls s))%nat ∧
  count is_onRetry (calls (onError this a err s)) =
    ((if retry && onRetry this then 1 else 0) + count is_onRetry (calls s))%nat ∧
  count is_reject (calls (onError this a err s)) =
    ((if retry then 0 else 1) + count is_reject (calls s))%nat.
Proof.
  cbn zeta. rewrite onError_closed.
  destruct (retriesDone s + 1 <=? retries this);
    unfold retry_state, reject_state, retry_calls; cbn [calls andb];
    [destruct (onRetry this)|];
    cbn [count app]; rewrite !count_app, !count_cleanup_calls_of by done;
    cbn [count is_schedule is_onRetry is_reject]; split_and!; lia.
Qed.

Lemma onError_waiting s a err :
  (waiting (attempts (onError this a err s)) ≤
   waiting (attempts s) +
   if (retriesDone s + 1 <=? retries this)%Z then 1 else 0)%nat.
Proof.
  rewrite onError_attempts. apply waiting_alter_le. intros x.
  unfold waiting_of.
  destruct (retriesDone s + 1 <=? retries this); cbn.
  - rewrite pending_app. cbn. destruct (closed x); lia.
  - lia.
Qed.

Lemma budgeted_onError s a err :
  budgeted this s → budgeted this (onError this a err s).
Proof.
  intros [Hr Hs Ha Ho Hj].
  destruct (onError_budget_counts s a err) as (Hc1 & Hc2 & Hc3).
  assert (Hw := onError_waiting s a err).
  unfold budget, attempts_made in *.
  split; rewrite ?Hc1, ?Hc2, ?Hc3, ?onError_retriesDone;
    unfold attempts_made, budget; rewrite ?onError_length;
    destruct (Z.leb_spec (retriesDone s + 1) (retries this));
    destruct (onRetry this); cbn [andb]; lia.
Qed.

Lemma budgeted_load : budgeted this (load this).
Proof.
  split; unfold budget, attempts_made, load, tryDownload; prims;
    cbn [length app count is_schedule is_onRetry is_reject];
    try change (waiting [newAttempt this]) with 0%nat;
    try destruct (onRetry this); lia.
Qed.

Lemma budgeted_step s ev : budgeted this s → budgeted this (step this ev s).
Proof.
  intros Hs. destruct ev as [a|t|a e|a e|a h tty|a r len|a|a]; cbn [step].
  - destruct (attempts s !! a) as [x|] eqn:Hx;
      [|by unfold onRequest, with_attempt; rewrite Hx].
    rewrite (onRequest_eq this _ _ _ Hx). destruct (requestListener x); [|done].
    apply (budgeted_quiet s _
             [CallSetTimeout (length (timers s)) (default 0 (timeout this))]);
      try done; unfold attempts_made; cbn [attempts];
      rewrite ?length_alter, ?waiting_alter_same by done; lia.
  - destruct (timers s !! t) as [tm|] eqn:Ht; [|by unfold onTimeout; rewrite Ht].
    rewrite (onTimeout_eq this _ _ _ Ht). destruct (timerState tm); [|done..].
    apply budgeted_onError.
    by apply (budgeted_quiet s _ [CallAbort (timerAttempt tm)]).
  - unfold with_attempt. destruct (attempts s !! a); [|done].
    by apply budgeted_onError.
  - unfold with_attempt. destruct (attempts s !! a); [|done].
    by apply budgeted_onError.
  - destruct (attempts s !! a) as [x|] eqn:Hx;
      [|by unfold onResponse, with_attempt; rewrite Hx].
    rewrite (onResponse_eq this _ _ _ _ _ Hx). cbn zeta.
    destruct (tty && js_gt (parseInt10 h) (minSizeToShowProgress this)).
    + apply (budgeted_quiet s _
               [CallNewProgressBar (progressBars s) (parseInt10 h)]);
        try done; unfold attempts_made; cbn [attempts];
        rewrite ?length_alter, ?waiting_alter_same by done; lia.
    + apply (budgeted_quiet s _ []);
        try done; unfold attempts_made; cbn [attempts];
        rewrite ?length_alter, ?waiting_alter_same by done; lia.
  - destruct (attempts s !! a) as [x|] eqn:Hx;
      [|by unfold onData, with_attempt; rewrite Hx].
    rewrite (onData_eq _ _ _ _ _ Hx). destruct (responses x !! r) as [d|]; [|done].
    apply (budgeted_quiet s _ (tick_calls x d len));
      try done; try (by apply count_tick_calls);
      unfold attempts_made; cbn [attempts];
      rewrite ?length_alter, ?waiting_alter_same by done; lia.
  - unfold with_attempt. destruct (attempts s !! a) as [x|] eqn:Hx; [|done].
    destruct (finishListener x); [|done].
    rewrite (onFinish_eq this _ _ _ Hx). destruct (mismatch x).
    + by apply budgeted_onError.
    + apply (budgeted_quiet s _
               (CallOnClose a OnCloseResolve :: cleanup_calls_of a (Some x)));
        try done; try (cbn [count]; by rewrite count_cleanup_calls_of);
        unfold attempts_made, success_state; cbn [attempts];
        rewrite ?length_alter; [lia|].
      rewrite !waiting_alter_same; [lia|done|].
      intros y. unfold waiting_of; cbn. rewrite pending_app. cbn.
      destruct (closed y); lia.
  - destruct (attempts s !! a) as [x|] eqn:Hx;
      [|by unfold onClose, with_attempt; rewrite Hx].
    rewrite (onClose_eq this _ _ _ Hx). destruct (closed x) eqn:Hc; [done|].
    apply (budgeted_quiet s _
             (close_calls a (length (attempts s)) (closeListeners x)));
      try (by apply count_close_calls); [done|..].
    + rewrite emit_close_calls. prims. by rewrite length_alter.
    + by rewrite emit_close_retriesDone.
    + unfold attempts_made. rewrite emit_close_attempts. prims.
      rewrite length_app, length_alter. lia.
    + unfold attempts_made. rewrite emit_close_attempts. prims.
      rewrite length_app, length_alter, length_replicate, waiting_app,
        waiting_replicate.
      assert (Hw := waiting_close (attempts s) a x Hx Hc). lia.
Qed.

Lemma reachable_budgeted s : reachable this s → budgeted this s.
Proof.
  induction 1 as [|s ev Hs IH]; [apply budgeted_load|by apply budgeted_step].
Qed.

Lemma length_omap_count {B} (f : Call → option B) (p : Call → bool) l :
  (∀ c, is_Some (f c) ↔ p c = true) → length (omap f l) = count p l.
Proof.
  intros Hf. induction l as [|c l IH]; [done|]. cbn.
  destruct (f c) as [b|] eqn:Hc, (p c) eqn:Hp; cbn; rewrite ?IH; try done.
  - assert (is_Some (f c)) as Hs by (by rewrite Hc). apply Hf in Hs. congruence.
  - assert (p c = true) as Hs by done. apply Hf in Hs. rewrite Hc in Hs.
    by destruct Hs.
Qed.

Lemma count_reverse p l : count p (reverse l) = count p l.
Proof.
  induction l as [|c l IH]; [done|].
  rewrite reverse_cons, count_app, IH. cbn. lia.
Qed.

Lemma length_onRetry_args s :
  length (onRetry_args s) = count is_onRetry (calls s).
Proof.
  unfold onRetry_args, trace.
  rewrite (length_omap_count _ is_onRetry), count_reverse; [done|].
  intros []; cbn; split; try done; by intros [].
Qed.

Lemma length_reject_args s :
  length (reject_args s) = count is_reject (calls s).
Proof.
  unfold reject_args, trace.
  rewrite (length_omap_count _ is_reject), count_reverse; [done|].
  intros []; cbn; split; try done; by intros [].
Qed.

End Budget.

(** X3. Whatever the streams and the timers do, and in whatever order:
    [tryDownload] has run at least once and at most [1 + retries] times
    (once, when [retries] is negative); [onRetry] has been called once per
    failure as long as the failures did not exceed [retries], and never
    when it is not a function; [reject] has been called once per failure
    beyond [retries]. *)
Theorem attempts_within_budget this s :
  reachable this s →
  (1 ≤ attempts_made s)%nat ∧
  Z.of_nat (attempts_made s) <= 1 + Z.max 0 (retries this) ∧
  Z.of_nat (length (onRetry_args s)) =
    (if onRetry this then Z.min (retriesDone s) (Z.max 0 (retries this)) else 0) ∧
  Z.of_nat (length (reject_args s)) =
    Z.max 0 (retriesDone s - Z.max 0 (retries this)).
Proof.
  intros Hs. destruct (reachable_budgeted this s Hs) as [Hr Hc [Ha1 Ha2] Ho Hj].
  unfold budget in *. rewrite length_onRetry_args, length_reject_args, Ho, Hj.
  split_and!; [done|lia| |lia].
  destruct (onRetry this); [done|lia].
Qed.

Lemma attempts_within_budget_witness :
  (1 ≤ attempts_made (after_double_failure 1))%nat ∧
  Z.of_nat (attempts_made (after_double_failure 1)) <= 2 ∧
  Z.of_nat (length (onRetry_args (after_double_failure 1))) = 1 ∧
  Z.of_nat (length (reject_args (after_double_failure 1))) = 1.
Proof.
  apply (attempts_within_budget (downloadSlow 1) (after_double_failure 1)).
  apply reachable_run, reachable_load.
Defined.

(** ** What a rejection reports *)

Section Rejection.

Variable this : LargeDownload.

Lemma rejection_onError s a err :
  rejection this s → rejection this (onError this a err s).
Proof.
  intros [Hr Hp Hj]. rewrite onError_closed.
  destruct (Z.leb_spec (retriesDone s + 1) (retries this)) as [Hle|Hgt];
    unfold retry_state, reject_state; split; cbn [retriesDone promise calls];
    unfold budget in *.
  - lia.
  - lia.
  - intros e He. destruct (Hj e He) as (b & err' & -> & Hin).
    exists b, err'. split; [done|].
    rewrite !elem_of_app. right; right. by right.
  - lia.
  - by destruct (promise s).
  - intros e He. destruct (promise s) as [| |e'] eqn:Hprom; [|done|].
    + injection He as <-. specialize (Hp eq_refl). exists a, err. split.
      * f_equal. lia.
      * right. rewrite elem_of_app. right. by left.
    + injection He as <-. destruct (Hj e' eq_refl) as (b & err' & -> & Hin).
      exists b, err'. split; [done|].
      right. rewrite elem_of_app. right. by right.
Qed.

Lemma rejection_quiet s s' :
  rejection this s →
  retriesDone s' = retriesDone s →
  (promise s' = promise s ∨ promise s' = Resolved) →
  (∃ delta, calls s' = delta ++ calls s) →
  rejection this s'.
Proof.
  intros [Hr Hp Hj] Hrd Hprom [delta Hc]. split; rewrite ?Hrd, ?Hc; [done|..].
  - intros He. apply Hp. destruct Hprom as [<-|Hres]; [done|congruence].
  - intros e He. destruct Hprom as [Heq|Hres]; [|congruence].
    rewrite Heq in He. destruct (Hj e He) as (b & err' & -> & Hin).
    exists b, err'. split; [done|]. rewrite elem_of_app. by right.
Qed.

Lemma rejection_transition s s' :
  rejection this s → transition this s s' → rejection this s'.
Proof.
  intros Hs Htr. assert (Hc := transition_calls this s s' Htr).
  destruct Htr as [s a x err Hx|s t tm Ht Harmed|s a x Hx Hfin Hm|s a x Hx Hr
                  |s a x declared d Hx|s a x r d len Hx Hr|s a x Hx Hc'|s
                  |s a x Hx Hc' Hin];
    try (apply (rejection_quiet s); try done; by left).
  - by apply rejection_onError.
  - apply rejection_onError.
    apply (rejection_quiet s); try done; [by left|].
    by exists [CallAbort (timerAttempt tm)].
  - destruct d; apply (rejection_quiet s); try done; by left.
  - apply (rejection_quiet s); try done. prims.
    destruct (promise s); [by right|by left..].
Qed.

Lemma reachable_rejection s : reachable this s → rejection this s.
Proof.
  intros Hs.
  apply (reachable_invariant this (rejection this) s); [| |done].
  - split; unfold budget; cbn; [lia|lia|done].
  - intros s1 s2. apply rejection_transition.
Qed.

End Rejection.

(** X4. Whatever the streams and the timers do: when the promise is rejected,
    the error is the aggregate of line 83 for the error of one of the
    failures, and the number of attempts in its message is [retries + 1]
    (it is 1 when [retries] is negative), whether or not that many
    attempts were made. *)
Theorem rejection_reports_budget this s e :
  reachable this s →
  promise s = Rejected e →
  ∃ a err,
    CallOnError a err ∈ trace s ∧
    message e =
      "Could not download " +:+ link this +:+ " in " +:+
      pretty (Z.max 0 (retries this) + 1) +:+ " attempts:" +:+ LF +:+
      message err.
Proof.
  intros Hs He.
  destruct (rej_rejected this s (reachable_rejection this s Hs) e He)
    as (a & err & -> & Hin).
  exists a, err. split; [|done]. unfold trace. by apply elem_of_reverse.
Qed.

Lemma rejection_reports_budget_witness :
  ∃ a err,
    CallOnError a err ∈ trace (after_double_failure 1) ∧
    message (aggregate (downloadSlow 1) 2 hangUp) =
      "Could not download " +:+ link (downloadSlow 1) +:+ " in " +:+
      pretty (Z.max 0 (retries (downloadSlow 1)) + 1) +:+ " attempts:" +:+ LF +:+
      message err.
Proof.
  apply (rejection_reports_budget (downloadSlow 1) (after_double_failure 1)
           (aggregate (downloadSlow 1) 2 hangUp)).
  - apply reachable_run, reachable_load.
  - reflexivity.
Defined.

(** ** Chunks *)

Section Data.

Variable this : LargeDownload.

Lemma reverse_tick_calls x d len :
  reverse (tick_calls x d len) = tick_calls x d len.
Proof. unfold tick_calls. by destruct d, (bar x). Qed.

Lemma run_data chunks : ∀ s a x r d,
  attempts s !! a = Some x → responses x !! r = Some d →
  run this (EvData a r <$> chunks) s = received a x d chunks s.
Proof.
  induction chunks as [|len chunks IH]; intros s a x r d Hx Hr.
  - unfold received. cbn [total foldr ticks flat_map reverse app fmap list_fmap run].
    rewrite Z.add_0_r.
    replace (set_downloadedSize (downloadedSize x) x) with x by by destruct x.
    rewrite list_insert_id by done. by destruct s.
  - cbn [fmap list_fmap run]. unfold seq_handler. cbn [step].
    rewrite (onData_eq _ _ _ _ _ Hx), Hr.
    erewrite IH; [|cbn [attempts]; by rewrite list_lookup_alter_eq, Hx|exact Hr].
    unfold received. cbn [retriesDone promise attempts timers progressBars calls].
    f_equal.
    + apply list_eq. intros i. destruct (decide (a = i)) as [<-|Hne].
      * rewrite !list_lookup_insert_eq
          by (rewrite ?length_alter; by eapply lookup_lt_Some).
        f_equal. unfold set_downloadedSize. cbn. f_equal.
        cbn [total foldr]. fold (total chunks). lia.
      * by rewrite !list_lookup_insert_ne, list_lookup_alter_ne.
    + unfold ticks. cbn [flat_map].
      rewrite reverse_app, reverse_tick_calls, <- app_assoc. done.
Qed.

End Data.

(** X6. The ['data'] listener of a response adds the length of every chunk to
    [downloadedSize] of its own attempt and touches nothing else: no other
    closure, no counter, no timer, and the promise stays as it is. It does
    so whether or not the attempt has been torn down. The only calls it
    makes are the ticks of the chunks, and only when the response showed a
    progress bar. *)
Theorem downloadedSize_accumulates this s a x r (d : bool) chunks :
  attempts s !! a = Some x →
  responses x !! r = Some d →
  let s' := run this (EvData a r <$> chunks) s in
  attempts s' !! a =
    Some (set_downloadedSize (downloadedSize x + Z.of_N (total chunks)) x) ∧
  (∀ b, b ≠ a → attempts s' !! b = attempts s !! b) ∧
  retriesDone s' = retriesDone s ∧
  promise s' = promise s ∧
  timers s' = timers s ∧
  trace s' =
    trace s ++
    match bar x with
    | Some b => if d : bool then CallTick b <$> chunks else []
    | None => []
    end.
Proof.
  intros Hx Hr s'. unfold s'. rewrite (run_data this chunks s a x r d Hx Hr).
  unfold received, trace. cbn [retriesDone promise attempts timers calls].
  split_and!; try done.
  - apply list_lookup_insert_eq. by eapply lookup_lt_Some.
  - intros b Hb. by apply list_lookup_insert_ne.
  - rewrite reverse_app, reverse_involutive. f_equal.
    unfold ticks, tick_calls. destruct (bar x) as [b|], d;
      induction chunks as [|len chunks IH]; cbn; by rewrite ?IH.
Qed.

Lemma downloadedSize_accumulates_witness :
  let s' := run downloadFile (EvData 0 0 <$> [65536; 65536]%N) responded in
  attempts s' !! 0%nat =
    Some (set_downloadedSize
            (downloadedSize responded_attempt + Z.of_N (total [65536; 65536]%N))
            responded_attempt) ∧
  (∀ b, b ≠ 0%nat → attempts s' !! b = attempts responded !! b) ∧
  retriesDone s' = retriesDone responded ∧
  promise s' = promise responded ∧
  timers s' = timers responded ∧
  trace s' = trace responded ++ [CallTick 0 65536; CallTick 0 65536].
Proof.
  apply (downloadedSize_accumulates downloadFile responded 0 responded_attempt
           0 true [65536; 65536]%N); reflexivity.
Defined.

(** ** A transfer that runs to its end *)

Section Complete.

Variable this : LargeDownload.

Lemma omap_ticks {B} (f : Call → option B) x d chunks :
  (∀ b len, f (CallTick b len) = None) →
  omap f (reverse (ticks x d chunks)) = [].
Proof.
  intros Hf. rewrite omap_reverse.
  replace (omap f (ticks x d chunks)) with (@nil B); [done|].
  unfold ticks, tick_calls. induction chunks as [|len chunks IH]; [done|].
  cbn [flat_map]. rewrite omap_app, <- IH.
  destruct d; [|done]. destruct (bar x); [|done]. cbn. by rewrite Hf.
Qed.

Lemma transfer_resolves s a x h tty chunks :
  attempts s !! a = Some x →
  finishListener x = true → closed x = false → closeListeners x = [] →
  responses x = [] → downloadedSize x = 0 →
  promise s = Pending →
  (truthy (parseInt10 h) = true → parseInt10 h = JNum (Z.of_N (total chunks))) →
  let s' := run this (EvResponse a h tty :: (EvData a 0 <$> chunks) ++
                      [EvFinish a; EvClose a]) s in
  promise s' = Resolved ∧
  retriesDone s' = retriesDone s ∧
  length (attempts s') = length (attempts s) ∧
  timers s' = cleanup_timers x (timers s) ∧
  onRetry_args s' = onRetry_args s ∧
  reject_args s' = reject_args s ∧
  (∃ l, trace s' = l ++ [CallOnClose a OnCloseResolve; CallResolve a] ∧
        CallEnd a ∈ l).
Proof.
  intros Hx Hfin Hcl Hls Hresp Hdl Hp Hh. cbn zeta.
  cbn [run]. unfold seq_handler. rewrite run_app.
  change (step this (EvResponse a h tty) s) with (onResponse this a h tty s).
  rewrite (onResponse_eq this _ _ _ _ _ Hx). cbn zeta.
  set (declared := parseInt10 h) in *.
  set (d := tty && js_gt declared (minSizeToShowProgress this)).
  set (s2 := if d then _ else _).
  set (x2 := add_response d
               ((if d then set_bar (Some (progressBars s)) else id)
                  (set_declaredSize declared x))).
  assert (Hx2 : attempts s2 !! a = Some x2).
  { unfold s2, x2. destruct d; cbn [attempts];
      by rewrite !list_lookup_alter_eq, Hx. }
  assert (Hr2 : responses x2 !! 0%nat = Some d).
  { unfold x2. destruct d; cbn; by rewrite Hresp. }
  rewrite (run_data this chunks s2 a x2 0 d Hx2 Hr2).
  set (x3 := set_downloadedSize (downloadedSize x2 + Z.of_N (total chunks)) x2).
  set (s3 := received a x2 d chunks s2).
  assert (Hx3 : attempts s3 !! a = Some x3).
  { unfold s3, received; cbn [attempts]. apply list_lookup_insert_eq.
    by eapply lookup_lt_Some. }
  assert (Hm : mismatch x3 = false).
  { apply not_true_iff_false. rewrite mismatch_spec.
    unfold x3, x2. destruct d; cbn; rewrite Hdl; intros [Ht Hne];
      apply Hne; by rewrite (Hh Ht). }
  assert (Hf3 : step this (EvFinish a) s3 = success_state a x3 s3).
  { cbn [step]. unfold with_attempt. rewrite Hx3.
    replace (finishListener x3) with true
      by (unfold x3, x2; destruct d; cbn; by rewrite Hfin).
    by rewrite (onFinish_eq this _ _ _ Hx3), Hm. }
  set (x4 := add_closeListener OnCloseResolve (detach x3)).
  assert (Hx4 : attempts (success_state a x3 s3) !! a = Some x4).
  { unfold success_state; cbn [attempts].
    by rewrite !list_lookup_alter_eq, Hx3. }
  assert (Hc4 : step this (EvClose a) (success_state a x3 s3) =
                settle Resolved
                  (call (CallResolve a)
                     (update a set_closed (success_state a x3 s3)))).
  { cbn [step]. rewrite (onClose_eq this _ _ _ Hx4).
    replace (closed x4) with false
      by (unfold x4, x3, x2; destruct d; cbn; by rewrite Hcl).
    replace (closeListeners x4) with [OnCloseResolve]
      by (unfold x4, x3, x2; destruct d; cbn; by rewrite Hls).
    reflexivity. }
  cbn [run]. unfold seq_handler, skip. rewrite Hf3, Hc4.
  clear Hf3 Hc4 Hx4. unfold settle, call, update, set_attempts, success_state.
  cbn [retriesDone promise attempts timers progressBars calls].
  assert (Hp3 : promise s3 = Pending) by (unfold s3, s2; by destruct d).
  assert (Ht3 : timers s3 = timers s) by (unfold s3, s2; by destruct d).
  assert (Hd3 : downloadTimer x3 = downloadTimer x)
    by (unfold x3, x2; by destruct d).
  split_and!.
  - by rewrite Hp3.
  - unfold s3, s2. by destruct d.
  - rewrite !length_alter. unfold s3, received; cbn [attempts].
    rewrite length_insert. unfold s2. destruct d; cbn [attempts];
      by rewrite !length_alter.
  - unfold cleanup_timers. by rewrite Hd3, Ht3.
  - unfold onRetry_args, trace. cbn [calls]. rewrite !omap_reverse.
    f_equal. cbn [omap list_omap onRetry_arg]. rewrite omap_app.
    rewrite onRetry_cleanup_calls. unfold s3, received; cbn [calls app].
    rewrite omap_app, omap_ticks by done. unfold s2. by destruct d.
  - unfold reject_args, trace. cbn [calls]. rewrite !omap_reverse.
    f_equal. cbn [omap list_omap reject_arg]. rewrite omap_app.
    rewrite reject_cleanup_calls. unfold s3, received; cbn [calls app].
    rewrite omap_app, omap_ticks by done. unfold s2. by destruct d.
  - unfold trace. cbn [calls].
    exists (reverse (cleanup_calls a x3 ++ calls s3)). split.
    + by rewrite !reverse_cons, <- app_assoc.
    + apply elem_of_reverse, elem_of_app. left. unfold cleanup_calls.
      rewrite !elem_of_app. right; right. by left.
Qed.

End Complete.

(** X7. A fresh attempt, the first or a retry, whose transfer runs to its end
    while the promise is pending, with a body of the declared length or
    with no usable [content-length]: the promise is resolved, in the
    ['close'] event and after the writable was ended, and stays resolved;
    no retry is consumed, no attempt is started, neither [onRetry] nor
    [reject] is called, and the timer that the request armed is cleared. *)
Theorem complete_transfer_resolves this s a h tty chunks :
  attempts s !! a = Some (newAttempt this) →
  promise s = Pending →
  (truthy (parseInt10 h) = true → parseInt10 h = JNum (Z.of_N (total chunks))) →
  let s' := run this (complete_transfer a h tty chunks) s in
  promise s' = Resolved ∧
  (∀ evs, promise (run this evs s') = Resolved) ∧
  retriesDone s' = retriesDone s ∧
  attempts_made s' = attempts_made s ∧
  timers s' = timers s ++ cleared_timer this a ∧
  onRetry_args s' = onRetry_args s ∧
  reject_args s' = reject_args s ∧
  (∃ l, trace s' = l ++ [CallOnClose a OnCloseResolve; CallResolve a] ∧
        CallEnd a ∈ l).
Proof.
  intros Hx Hp Hh s'.
  assert (Hrun : s' = run this (EvResponse a h tty :: (EvData a 0 <$> chunks) ++
                                [EvFinish a; EvClose a]) (onRequest this a s))
    by reflexivity.
  rewrite (onRequest_eq this _ _ _ Hx) in Hrun.
  change (requestListener (newAttempt this)) with (timeout_set this) in Hrun.
  clearbody s'. subst s'. unfold cleared_timer.
  destruct (timeout_set this).
  - set (s1 := {| retriesDone := retriesDone s |}).
    set (x1 := set_downloadTimer (Some (length (timers s))) (newAttempt this)).
    assert (Hx1 : attempts s1 !! a = Some x1).
    { unfold s1; cbn [attempts]. by rewrite list_lookup_alter_eq, Hx. }
    destruct (transfer_resolves this s1 a x1 h tty chunks Hx1)
      as (Hres & Hrd & Hlen & Htm & Hor & Hrj & Htr); [done..|].
    split_and!.
    + exact Hres.
    + intros evs. rewrite run_promise_settled; [exact Hres|by rewrite Hres].
    + exact Hrd.
    + unfold attempts_made. rewrite Hlen. unfold s1; cbn [attempts].
      by rewrite length_alter.
    + rewrite Htm. unfold cleanup_timers, x1, s1.
      cbn [downloadTimer set_downloadTimer timers].
      rewrite alter_app_r_alt by lia. by rewrite Nat.sub_diag.
    + rewrite Hor. unfold onRetry_args, trace, s1; cbn [calls].
      rewrite reverse_cons, omap_app. cbn. by rewrite app_nil_r.
    + rewrite Hrj. unfold reject_args, trace, s1; cbn [calls].
      rewrite reverse_cons, omap_app. cbn. by rewrite app_nil_r.
    + exact Htr.
  - destruct (transfer_resolves this s a (newAttempt this) h tty chunks Hx)
      as (Hres & Hrd & Hlen & Htm & Hor & Hrj & Htr); [done..|].
    split_and!.
    + exact Hres.
    + intros evs. rewrite run_promise_settled; [exact Hres|by rewrite Hres].
    + exact Hrd.
    + exact Hlen.
    + by rewrite Htm, app_nil_r.
    + exact Hor.
    + exact Hrj.
    + exact Htr.
Qed.

Lemma complete_transfer_resolves_witness :
  let s' := run (downloadSlow 0) (complete_transfer 0 (Some "12") false [5; 7]%N)
              (load (downloadSlow 0)) in
  promise s' = Resolved ∧
  (∀ evs, promise (run (downloadSlow 0) evs s') = Resolved) ∧
  retriesDone s' = retriesDone (load (downloadSlow 0)) ∧
  attempts_made s' = attempts_made (load (downloadSlow 0)) ∧
  timers s' = timers (load (downloadSlow 0)) ++ cleared_timer (downloadSlow 0) 0 ∧
  onRetry_args s' = onRetry_args (load (downloadSlow 0)) ∧
  reject_args s' = reject_args (load (downloadSlow 0)) ∧
  (∃ l, trace s' = l ++ [CallOnClose 0 OnCloseResolve; CallResolve 0] ∧
        CallEnd 0 ∈ l).
Proof.
  apply (complete_transfer_resolves (downloadSlow 0) (load (downloadSlow 0)) 0
           (Some "12") false [5; 7]%N); reflexivity.
Defined.

(** ** Timers and teardown *)

Section Timers.

Variable this : LargeDownload.

Lemma cancel_not_armed tm : timerState (cancel tm) ≠ Armed.
Proof. unfold cancel. by destruct (timerState tm) eqn:Hst; cbn; rewrite ?Hst. Qed.

Lemma onError_timers s a err :
  timers (onError this a err s) = cleanup_timers_of (attempts s !! a) (timers s).
Proof.
  rewrite onError_closed.
  by destruct (retriesDone s + 1 <=? retries this).
Qed.

Lemma onTimeout_disarmed s t :
  (∀ tm, timers s !! t = Some tm → timerState tm ≠ Armed) →
  step this (EvTimeout t) s = s.
Proof.
  intros Hd. cbn [step]. unfold onTimeout.
  destruct (timers s !! t) as [tm|] eqn:Ht; [|done].
  specialize (Hd tm eq_refl). by destruct (timerState tm).
Qed.

Lemma onError_teardown s a x err :
  attempts s !! a = Some x →
  ∃ l1 l2, calls (onError this a err s) = l1 ++ cleanup_calls a x ++ l2.
Proof.
  intros Hx. rewrite (onError_eq this _ _ _ _ Hx).
  destruct (retriesDone s + 1 <=? retries this); cbn [calls].
  - by exists (retry_calls this a err), (CallOnError a err :: calls s).
  - by exists [CallReject (aggregate this (retriesDone s + 1) err)],
              (CallOnError a err :: calls s).
Qed.

(** What an event that ends a live attempt does to the timers and to the
    calls. *)
Lemma end_timers s a x ev :
  attempts s !! a = Some x → finishListener x = true → terminal a ev →
  timers (step this ev s) = cleanup_timers x (timers s) ∧
  ∃ l1 l2, calls (step this ev s) = l1 ++ cleanup_calls a x ++ l2.
Proof.
  intros Hx Hfin [->|[[e ->]|[e ->]]]; cbn [step]; unfold with_attempt;
    rewrite Hx, ?Hfin.
  - rewrite (onFinish_eq this _ _ _ Hx). destruct (mismatch x).
    + rewrite onError_timers, Hx. split; [done|by apply onError_teardown].
    + split; [done|]. unfold success_state; cbn [calls].
      by exists [CallOnClose a OnCloseResolve], (calls s).
  - rewrite onError_timers, Hx. split; [done|by apply onError_teardown].
  - rewrite onError_timers, Hx. split; [done|by apply onError_teardown].
Qed.

End Timers.

(** X8. When a live attempt ends, by finish or by an error of either stream,
    the timer its closure holds is cleared: [clearTimeout] is called on
    it, it is no longer armed, and its expiry afterwards does nothing. *)
Theorem timer_cleared_at_end this s a x t ev :
  attempts s !! a = Some x →
  finishListener x = true →
  downloadTimer x = Some t →
  terminal a ev →
  let s' := step this ev s in
  CallClearTimeout t ∈ trace s' ∧
  (∀ tm, timers s' !! t = Some tm → timerState tm ≠ Armed) ∧
  step this (EvTimeout t) s' = s'.
Proof.
  intros Hx Hfin Ht Hev s'.
  destruct (end_timers this s a x ev Hx Hfin Hev) as (Htm & l1 & l2 & Hc).
  assert (Hd : ∀ tm, timers s' !! t = Some tm → timerState tm ≠ Armed).
  { intros tm. unfold s'. rewrite Htm. unfold cleanup_timers. rewrite Ht.
    rewrite list_lookup_alter_eq. destruct (timers s !! t); [|done].
    intros [= <-]. apply cancel_not_armed. }
  split_and!; [|done|by apply onTimeout_disarmed].
  unfold trace. apply elem_of_reverse. fold s' in Hc. rewrite Hc.
  unfold cleanup_calls. rewrite Ht, !elem_of_app.
  right; left. right; left. by left.
Qed.

Lemma timer_cleared_at_end_witness :
  let s' := step (downloadSlow 0) (EvFinish 0)
              (step (downloadSlow 0) (EvRequest 0) (load (downloadSlow 0))) in
  CallClearTimeout 0 ∈ trace s' ∧
  (∀ tm, timers s' !! 0%nat = Some tm → timerState tm ≠ Armed) ∧
  step (downloadSlow 0) (EvTimeout 0) s' = s'.
Proof.
  apply (timer_cleared_at_end (downloadSlow 0)
           (step (downloadSlow 0) (EvRequest 0) (load (downloadSlow 0))) 0
           (set_downloadTimer (Some 0%nat) (newAttempt (downloadSlow 0))) 0
           (EvFinish 0)); try reflexivity.
  by left.
Defined.

(** X9. Every ['request'] event of an attempt arms a timer and overwrites
    [downloadTimer], and teardown clears only the timer that the closure
    holds: after two ['request'] events, when the attempt ends, the second
    timer is cleared and the first is still armed; its expiry aborts the
    request and fails the ended attempt again. *)
Theorem second_request_leaks_timer this s a x ev :
  attempts s !! a = Some x →
  requestListener x = true →
  finishListener x = true →
  terminal a ev →
  let ms := default 0 (timeout this) in
  let t := length (timers s) in
  let s' := step this ev (step this (EvRequest a) (step this (EvRequest a) s)) in
  timers s' = timers s ++ [mkTimer a ms Armed; mkTimer a ms Cleared] ∧
  step this (EvTimeout t) s' =
    onError this a (timeoutError this) (fired_state t (mkTimer a ms Armed) s').
Proof.
  intros Hx Hreq Hfin Hev ms t s'.
  assert (Htm : timers s' = timers s ++ [mkTimer a ms Armed; mkTimer a ms Cleared]).
  { unfold s'. cbn [step]. rewrite (onRequest_eq this _ _ _ Hx), Hreq.
    set (s1 := {| retriesDone := retriesDone s |}).
    set (x1 := set_downloadTimer (Some (length (timers s))) x).
    assert (Hx1 : attempts s1 !! a = Some x1).
    { unfold s1; cbn [attempts]. by rewrite list_lookup_alter_eq, Hx. }
    rewrite (onRequest_eq this _ _ _ Hx1).
    change (requestListener x1) with (requestListener x). rewrite Hreq.
    set (s2 := {| retriesDone := retriesDone s1 |}).
    set (x2 := set_downloadTimer (Some (length (timers s1))) x1).
    assert (Hx2 : attempts s2 !! a = Some x2).
    { unfold s2; cbn [attempts]. by rewrite list_lookup_alter_eq, Hx1. }
    change (onRequest this a s2) with (step this (EvRequest a) s2).
    destruct (end_timers this s2 a x2 ev Hx2 Hfin Hev) as [-> _].
    unfold cleanup_timers, x2, s2, s1.
    cbn [downloadTimer set_downloadTimer timers].
    rewrite alter_app_r_alt by lia. rewrite Nat.sub_diag.
    by rewrite <- app_assoc. }
  split; [done|].
  cbn [step]. rewrite (onTimeout_eq this s' t (mkTimer a ms Armed)); [done|].
  rewrite Htm. unfold t. rewrite lookup_app_r by lia.
  by rewrite Nat.sub_diag.
Qed.

Lemma second_request_leaks_timer_witness :
  let s' := step (downloadSlow 0) (EvFinish 0)
              (step (downloadSlow 0) (EvRequest 0)
                 (step (downloadSlow 0) (EvRequest 0) (load (downloadSlow 0)))) in
  timers s' = [mkTimer 0 500 Armed; mkTimer 0 500 Cleared] ∧
  step (downloadSlow 0) (EvTimeout 0) s' =
    onError (downloadSlow 0) 0 (timeoutError (downloadSlow 0))
      (fired_state 0 (mkTimer 0 500 Armed) s').
Proof.
  apply (second_request_leaks_timer (downloadSlow 0) (load (downloadSlow 0)) 0
           (newAttempt (downloadSlow 0)) (EvFinish 0)); try reflexivity.
  by left.
Defined.

(** ** A failure after the success of an attempt *)

(** X10. An attempt that finishes with the right size while the promise is
    pending, and whose writable then fails before it closes: the failure
    is consumed by the retry logic although the attempt has succeeded.
    With a retry left, the ['close'] event both resolves the promise and
    starts a new attempt; with none left, the promise is rejected, and the
    ['close'] event does not resolve it. *)
Theorem error_between_finish_and_close this s a x e :
  attempts s !! a = Some x →
  finishListener x = true →
  mismatch x = false →
  closed x = false →
  closeListeners x = [] →
  promise s = Pending →
  let s' := run this (finish_error_close a e) s in
  let retry := retriesDone s + 1 <=? retries this in
  retriesDone s' = retriesDone s + 1 ∧
  promise s' =
    (if retry then Resolved
     else Rejected (aggregate this (retriesDone s + 1) e)) ∧
  attempts_made s' = (attempts_made s + if retry then 1 else 0)%nat ∧
  (retry = true → attempts s' !! attempts_made s = Some (newAttempt this)).
Proof.
  intros Hx Hfin Hm Hcl Hls Hp. cbn zeta. unfold finish_error_close.
  cbn [run]. unfold seq_handler, skip.
  assert (H1 : step this (EvFinish a) s = success_state a x s).
  { cbn [step]. unfold with_attempt.
    by rewrite Hx, Hfin, (onFinish_eq this _ _ _ Hx), Hm. }
  rewrite H1. clear H1.
  set (s1 := success_state a x s).
  set (x1 := add_closeListener OnCloseResolve (detach x)).
  assert (Hx1 : attempts s1 !! a = Some x1).
  { unfold s1, success_state; cbn [attempts].
    by rewrite !list_lookup_alter_eq, Hx. }
  rewrite (step_writable_error this _ _ _ _ Hx1).
  rewrite (onError_eq this _ _ _ _ Hx1).
  change (retriesDone s1) with (retriesDone s).
  change (promise s1) with (promise s). rewrite Hp.
  destruct (retriesDone s + 1 <=? retries this).
  - set (s2 := {| retriesDone := retriesDone s + 1 |}).
    set (x2 := add_closeListener OnCloseTryDownload (detach x1)).
    assert (Hx2 : attempts s2 !! a = Some x2).
    { unfold s2; cbn [attempts]. by rewrite !list_lookup_alter_eq, Hx1. }
    cbn [step]. rewrite (onClose_eq this _ _ _ Hx2).
    replace (closed x2) with false by (unfold x2, x1; cbn; by rewrite Hcl).
    replace (closeListeners x2) with [OnCloseResolve; OnCloseTryDownload]
      by (unfold x2, x1; cbn; by rewrite Hls).
    rewrite emit_close_retriesDone, emit_close_promise.
    unfold attempts_made. rewrite emit_close_attempts. prims.
    assert (Hlen : length (alter set_closed a (attempts s2)) = length (attempts s)).
    { unfold s2, s1, success_state; cbn [attempts]. by rewrite !length_alter. }
    split_and!.
    + done.
    + by rewrite bool_decide_eq_true_2 by (by left).
    + rewrite length_app, Hlen. done.
    + intros _. rewrite lookup_app_r by lia. by rewrite Hlen, Nat.sub_diag.
  - set (s2 := {| retriesDone := retriesDone s + 1 |}).
    set (x2 := detach x1).
    assert (Hx2 : attempts s2 !! a = Some x2).
    { unfold s2; cbn [attempts]. by rewrite !list_lookup_alter_eq, Hx1. }
    cbn [step]. rewrite (onClose_eq this _ _ _ Hx2).
    replace (closed x2) with false by (unfold x2, x1; cbn; by rewrite Hcl).
    replace (closeListeners x2) with [OnCloseResolve]
      by (unfold x2, x1; cbn; by rewrite Hls).
    rewrite emit_close_retriesDone, emit_close_promise.
    unfold attempts_made. rewrite emit_close_attempts. prims.
    split_and!.
    + done.
    + by rewrite bool_decide_eq_true_2 by (by left).
    + rewrite length_app. unfold s2, s1, success_state; cbn [attempts length pending replicate].
      rewrite !length_alter. lia.
    + done.
Qed.

Lemma error_between_finish_and_close_witness :
  let s' := run downloadFile (finish_error_close 0 diskFull) (load downloadFile) in
  retriesDone s' = retriesDone (load downloadFile) + 1 ∧
  promise s' = Resolved ∧
  attempts_made s' = 2%nat ∧
  (true = true → attempts s' !! 1%nat = Some (newAttempt downloadFile)).
Proof.
  apply (error_between_finish_and_close downloadFile (load downloadFile) 0
           (newAttempt downloadFile) diskFull); reflexivity.
Defined.

(** ** The defaults at work *)

Section Defaults.

Variable this : LargeDownload.

Lemma reachable_no_timers s :
  reachable this s → timeout_set this = false → timers s = [].
Proof.
  intros Hs Hno. induction Hs as [|s ev Hs IH]; [done|].
  assert (Hcase : (∃ a, ev = EvRequest a) ∨ (∀ a, ev ≠ EvRequest a)).
  { destruct ev; try (by right); left; eauto. }
  destruct Hcase as [[a ->]|Hne].
  - cbn [step]. destruct (attempts s !! a) as [x|] eqn:Hx;
      [|by unfold onRequest, with_attempt; rewrite Hx].
    rewrite (onRequest_eq this _ _ _ Hx).
    by rewrite (reachable_requestListener this s a x Hs Hx), Hno.
  - by apply step_timers_nil.
Qed.

End Defaults.

(** X11. A download built by the constructor, in every state it can reach:
    without a [retries] option it makes at most two attempts; with
    [retries: 0], which the constructor keeps, it makes one attempt and
    never calls [onRetry]; without a [timeout], or with [timeout: 0], it
    never sets a timer; and when [onRetry] is not a function it is never
    called. *)
Theorem constructed_defaults opts d s :
  constructor opts = inr d →
  reachable d s →
  (opt_retries opts = None → (attempts_made s ≤ 2)%nat) ∧
  (opt_retries opts = Some 0 → attempts_made s = 1%nat ∧ onRetry_args s = []) ∧
  (opt_timeout opts = None ∨ opt_timeout opts = Some 0 → timers s = []) ∧
  (opt_onRetry opts = false → onRetry_args s = []).
Proof.
  intros Hc Hs.
  assert (Hf : retries d = default 1 (opt_retries opts) ∧
               timeout d = opt_timeout opts ∧ onRetry d = opt_onRetry opts).
  { revert Hc. unfold constructor.
    destruct (nonempty (opt_link opts)); [|discriminate].
    destruct (nonempty (opt_destination opts)); [|discriminate].
    by intros [= <-]. }
  destruct Hf as (Hr & Ht & Ho).
  destruct (reachable_budgeted d s Hs) as [Hrd Hsch [Ha1 Ha2] Hon Hrj].
  unfold budget in *. rewrite Hr in *.
  split_and!.
  - intros Hn. rewrite Hn in *. cbn in *. lia.
  - intros Hn. rewrite Hn in *. cbn in *. split; [lia|].
    apply nil_length_inv. rewrite length_onRetry_args, Hon.
    destruct (onRetry d); lia.
  - intros Hn. apply (reachable_no_timers d s Hs).
    unfold timeout_set. rewrite Ht. by destruct Hn as [->| ->].
  - intros Hn. apply nil_length_inv. rewrite length_onRetry_args, Hon.
    by rewrite Ho, Hn.
Qed.

Lemma constructed_defaults_witness :
  ((attempts_made after_default_retry ≤ 2)%nat ∧
   timers after_default_retry = [] ∧
   onRetry_args after_default_retry = []) ∧
  (attempts_made after_no_retry = 1%nat ∧ onRetry_args after_no_retry = []).
Proof.
  destruct (constructed_defaults default_options downloadFile after_default_retry
              eq_refl (reachable_run _ _ _ (reachable_load _)))
    as (H1 & _ & H3 & H4).
  destruct (constructed_defaults no_retry_options (download404 0) after_no_retry
              eq_refl (reachable_run _ _ _ (reachable_load _)))
    as (_ & H2 & _ & _).
  exact (conj (conj (H1 eq_refl) (conj (H3 (or_introl eq_refl)) (H4 eq_refl)))
           (H2 eq_refl)).
Defined.
